(** * Menu visibility and staking-account role derivation of crust-apps

    A shallow embedding of
    - [packages/apps/src/Menu/index.tsx]: [logDisabled], [checkVisible],
      [extractGroups];
    - the staking [Account] row component: the role effect, the
      guarantee-target effect and the stake-value effect;
    together with the properties the specification states about them. *)

From Stdlib Require Import ZArith NArith List Bool Ascii String Lia.
From Stdlib Require Import DecimalString DecimalPos DecimalN.
From stdpp Require Import base option list strings gmap.

Local Open Scope string_scope.
Local Open Scope list_scope.
Local Open Scope Z_scope.

(** ** The JavaScript runtime notions the two sources rely on *)

Module JS.

(** Truthiness of a value of type [string | undefined]: [undefined] and
    the empty string are falsy, every other string is truthy. *)
Definition truthy_string (v : option string) : bool :=
  match v with
  | None => false
  | Some s => negb (String.eqb s "")
  end.

(** [Array.prototype.toString] on an array of strings: the elements
    joined by commas. *)
Definition Array_toString (xs : list string) : string :=
  String.concat "," xs.

(** [Array.prototype.indexOf(x) != -1]. *)
Definition includes (x : string) (xs : list string) : bool :=
  existsb (String.eqb x) xs.

(** *** Plain objects used as string-keyed maps

    An object literal [{}] has the own properties the program sets, in
    insertion order, and inherits the properties of [Object.prototype].
    A property read [o[k]] sees both. *)

Definition Object_prototype_keys : list string :=
  [ "constructor"; "__defineGetter__"; "__defineSetter__";
    "hasOwnProperty"; "__lookupGetter__"; "__lookupSetter__";
    "isPrototypeOf"; "propertyIsEnumerable"; "toString"; "valueOf";
    "__proto__"; "toLocaleString" ].

Definition inherited (k : string) : bool := includes k Object_prototype_keys.

Section Obj.
Context {V : Type}.

(** Own properties, oldest first. *)
Definition Obj := list (string * V).

Inductive Prop_read :=
| Own (v : V)
| Inherited
| Undefined.

Fixpoint own_get (o : Obj) (k : string) : option V :=
  match o with
  | [] => None
  | (k', v) :: o' => if String.eqb k k' then Some v else own_get o' k
  end.

(** [o[k]] *)
Definition get (o : Obj) (k : string) : Prop_read :=
  match own_get o k with
  | Some v => Own v
  | None => if inherited k then Inherited else Undefined
  end.

(** [o[k] = v] for a key that is not yet an own property: the property
    is created after the existing ones. *)
Definition define (o : Obj) (k : string) (v : V) : Obj := o ++ [(k, v)].

(** In-place change of the value held by the own property [k]. *)
Fixpoint modify (o : Obj) (k : string) (f : V -> V) : Obj :=
  match o with
  | [] => []
  | (k', v) :: o' =>
      if String.eqb k k' then (k', f v) :: o' else (k', v) :: modify o' k f
  end.

(** *** Property enumeration order

    [Object.values] lists the own properties whose key is an array
    index (a canonical decimal numeral below 2^32 - 1) first, by
    ascending index, and then the other string keys in insertion
    order. *)

Definition digit (c : ascii) : option N :=
  let n := N_of_ascii c in
  if ((48 <=? n) && (n <=? 57))%N then Some (n - 48)%N else None.

Fixpoint digits (s : string) (acc : N) : option N :=
  match s with
  | EmptyString => Some acc
  | String c s' =>
      match digit c with
      | Some d => digits s' (acc * 10 + d)%N
      | None => None
      end
  end.

Definition array_index (k : string) : option N :=
  match k with
  | EmptyString => None
  | String c rest =>
      if Ascii.eqb c "0" && negb (String.eqb rest "") then None
      else match digits k 0 with
           | Some n => if (n <=? 4294967294)%N then Some n else None
           | None => None
           end
  end.

Fixpoint insert_by_index (i : N) (v : V) (l : list (N * V)) : list (N * V) :=
  match l with
  | [] => [(i, v)]
  | (j, w) :: l' =>
      if (i <? j)%N then (i, v) :: l else (j, w) :: insert_by_index i v l'
  end.

(** The own properties with an array-index key, by ascending index. *)
Fixpoint indexed (o : Obj) : list (N * V) :=
  match o with
  | [] => []
  | (k, v) :: o' =>
      match array_index k with
      | Some i => insert_by_index i v (indexed o')
      | None => indexed o'
      end
  end.

(** The own properties with any other key, in insertion order. *)
Fixpoint named (o : Obj) : list V :=
  match o with
  | [] => []
  | (k, v) :: o' =>
      match array_index k with
      | Some _ => named o'
      | None => v :: named o'
      end
  end.

(** [Object.values(o)] *)
Definition values (o : Obj) : list V := map snd (indexed o) ++ named o.

End Obj.
Arguments Obj : clear implicits.

(** A key that is neither an array index nor the name of an inherited
    property: on such keys an object literal behaves as an
    insertion-ordered map. *)
Definition plain_key (k : string) : bool :=
  match array_index k with
  | Some _ => false
  | None => negb (inherited k)
  end.

(** *** Numbers

    A [Number] is an IEEE 754 binary64 value.  Only the conversion of a
    non-negative integer is needed here: [Number(v)] is the binary64
    value nearest to [v], ties going to the even significand.  Chain
    balances are below 2^128, far from the overflow threshold. *)
Definition Number_of (v : N) : N :=
  let e := N.log2 v in
  if (e <? 53)%N then v
  else
    let sh := (e - 52)%N in
    let q := N.shiftr v sh in
    let r := (v - N.shiftl q sh)%N in
    let half := N.shiftl 1 (sh - 1) in
    let q' := if (r <? half)%N then q
              else if (half <? r)%N then (q + 1)%N
              else if N.even q then q else (q + 1)%N in
    N.shiftl q' sh.

Definition decimal (n : N) : string := NilZero.string_of_uint (N.to_uint n).

(** [Number.prototype.toString] picks the decimal numeral [s * 10^(n-k)]
    with the fewest significant digits [k] that converts back to the
    number, the nearest one when several do.  [shortest_at m p] is that
    choice of [s] among the multiples of [p = 10^(n-k)]. *)
Definition shortest_at (m p : N) : option N :=
  let lo := (m / p)%N in
  let hi := (lo + 1)%N in
  let ok s := N.eqb (Number_of (s * p)) m in
  match ok lo, ok hi with
  | true, true =>
      let dlo := (m - lo * p)%N in
      let dhi := (hi * p - m)%N in
      if (dlo <? dhi)%N then Some lo
      else if (dhi <? dlo)%N then Some hi
      else Some (if N.even lo then lo else hi)
  | true, false => Some lo
  | false, true => Some hi
  | false, false => None
  end.

(** Search from [k = 1] upwards; [j] is [n - k], the number of trailing
    zeros. *)
Fixpoint shortest (m : N) (j : nat) : N :=
  match j with
  | O => m
  | S j' =>
      let p := (10 ^ N.of_nat j)%N in
      match shortest_at m p with
      | Some s => (s * p)%N
      | None => shortest m j'
      end
  end.

(** [m.toString()] for a number [m] with a non-negative integer value.
    Below 10^21 the result is a plain decimal numeral; from 10^21 on it
    is in exponential notation, represented by [None]. *)
Definition Number_toString (m : N) : option string :=
  if (m <? 10 ^ 21)%N
  then Some (decimal (shortest m (String.length (decimal m) - 1)))
  else None.

(** [new BN(text)] for a decimal numeral: its value.  Other texts are
    outside this function ([None]); what the library makes of them is a
    parameter of [Account.toBN]. *)
Definition BN_of_string (text : string) : option N :=
  match text with
  | EmptyString => None
  | _ => option_map N.of_uint (NilEmpty.uint_of_string text)
  end.

End JS.

(** ** The diagnostics log: module state of [Menu/index.tsx] *)

Module Menu.

(** One [console.warn] call: the route it was issued for and the line
    written. *)
Record Warning := { w_route : string; w_line : string }.

(** The module-level [disabledLog] map and the console output so far
    (most recent last). *)
Record Log := {
  disabledLog : gmap string string;
  console : list Warning
}.

(** State at module load: [new Map()], nothing written. *)
Definition start : Log := {| disabledLog := ∅; console := [] |}.

(** Computations that read and update the log. *)
Definition M (A : Type) : Type := Log -> A * Log.

Definition ret {A} (a : A) : M A := fun st => (a, st).

Definition bind {A B} (m : M A) (k : A -> M B) : M B :=
  fun st => let (a, st') := m st in k a st'.

Notation "x <- m ;; k" := (bind m (fun x => k))
  (at level 100, m at next level, right associativity).
Notation "m ;;; k" := (bind m (fun _ => k))
  (at level 100, right associativity).

(** [routes.filter(p)] for a predicate with effects: the predicate runs
    once per element, left to right. *)
Fixpoint filterM {A} (p : A -> M bool) (l : list A) : M (list A) :=
  match l with
  | [] => ret []
  | x :: l' =>
      b <- p x ;;
      rest <- filterM p l' ;;
      ret (if b then x :: rest else rest)
  end.

(** [xs.map(f)] for a function with effects. *)
Fixpoint mapM {A B} (f : A -> M B) (l : list A) : M (list B) :=
  match l with
  | [] => ret []
  | x :: l' =>
      y <- f x ;;
      rest <- mapM f l' ;;
      ret (y :: rest)
  end.

(** *** Data *)

(** [Route['display']]; an optional boolean that is absent reads as
    false.  [needsApi] is absent ([None]) or an array of endpoint names. *)
Record Display := {
  isHidden : bool;
  needsAccounts : bool;
  needsApi : option (list string);
  needsSudo : bool
}.

(** The fields of a [Route] the menu logic reads. *)
Record Route := {
  name : string;
  group : string;
  display : Display
}.

(** The fields of [ApiProps] that [checkVisible] reads; [api] is
    represented by the set of endpoints it exposes. *)
Record ApiProps := {
  api : gset string;
  isApiConnected : bool;
  isApiReady : bool
}.

(** [Group]: the display name ([groupNames[route.group]], possibly
    [undefined]) and the routes. *)
Record Group := {
  g_name : option string;
  routes : list Route
}.

(** Modelled from the spec: [findMissingApis] of [../endpoint], which is
    imported by [Menu/index.tsx] but is not among the sources.  The
    specification describes it as the sub-sequence of the required
    capabilities that are absent from the capability set. *)
Definition findMissingApis (api : gset string) (needsApi : list string)
  : list string :=
  List.filter (fun c => negb (bool_decide (c ∈ api))) needsApi.

(** *** [logDisabled] *)

Definition warn_line (route message : string) : string :=
  "Disabling " +:+ route +:+ ": " +:+ message.

Definition logDisabled (route message : string) : M unit :=
  fun st =>
    if negb (JS.truthy_string (disabledLog st !! route)) then
      (tt, {| disabledLog := <[route := message]> (disabledLog st);
              console := console st ++
                [{| w_route := route; w_line := warn_line route message |}] |})
    else (tt, st).

(** *** [checkVisible] *)

Definition sudo_message : string := "Sudo key not available".

Definition api_message (notFound : list string) : string :=
  "API not available: " +:+ JS.Array_toString notFound.

Definition checkVisible (name : string) (props : ApiProps)
    (hasAccounts hasSudo : bool) (d : Display) : M bool :=
  if isHidden d then ret false
  else if needsAccounts d && negb hasAccounts then ret false
  else match needsApi d with
  | None => ret true
  | Some needs =>
      if negb (isApiReady props) || negb (isApiConnected props) then ret false
      else if needsSudo d && negb hasSudo then
        logDisabled name sudo_message ;;; ret false
      else
        let notFound := findMissingApis (api props) needs in
        (if negb (length notFound =? 0)%nat
         then logDisabled name (api_message notFound)
         else ret tt) ;;;
        ret (length notFound =? 0)%nat
  end.

(** *** [extractGroups] *)

Definition Groups := JS.Obj Group.

(** One step of the [reduce] callback; [None] stands for the
    [TypeError] raised by [all[route.group].routes.push] when
    [all[route.group]] is an inherited property. *)
Definition addRoute (groupNames : string -> option string)
    (all : Groups) (route : Route) : option Groups :=
  match JS.get all (group route) with
  | JS.Undefined =>
      Some (JS.define all (group route)
              {| g_name := groupNames (group route); routes := [route] |})
  | JS.Own _ =>
      Some (JS.modify all (group route)
              (fun g => {| g_name := g_name g; routes := routes g ++ [route] |}))
  | JS.Inherited => None
  end.

(** [routing.reduce(..., all)] *)
Fixpoint reduceRoutes (groupNames : string -> option string)
    (routing : list Route) (all : Groups) : option Groups :=
  match routing with
  | [] => Some all
  | route :: rest =>
      match addRoute groupNames all route with
      | Some all' => reduceRoutes groupNames rest all'
      | None => None
      end
  end.

Definition nonEmpty (g : Group) : bool := negb (length (routes g) =? 0)%nat.

Definition extractGroups (routing : list Route)
    (groupNames : string -> option string) (apiProps : ApiProps)
    (hasAccounts hasSudo : bool) : M (option (list Group)) :=
  match reduceRoutes groupNames routing [] with
  | None => ret None
  | Some all =>
      mapped <- mapM (fun g =>
                  rs <- filterM (fun r => checkVisible (name r) apiProps
                                            hasAccounts hasSudo (display r))
                                (routes g) ;;
                  ret {| g_name := g_name g; routes := rs |})
                (JS.values all) ;;
      ret (Some (List.filter nonEmpty mapped))
  end.

End Menu.

(** ** The visibility filter as the specification words it *)

Module Spec.
Import Menu.

Definition requiresApi (d : Display) : bool :=
  match needsApi d with Some _ => true | None => false end.

Definition requiredCapabilities (d : Display) : list string :=
  match needsApi d with Some needs => needs | None => [] end.

(** The required capabilities absent from the capability set. *)
Definition missing (capabilities : gset string) (d : Display) : list string :=
  List.filter (fun c => negb (bool_decide (c ∈ capabilities)))
              (requiredCapabilities d).

(** The short-circuit chain of the specification, without its side
    effects. *)
Definition routeVisible (context : ApiProps) (hasAccounts hasSudo : bool)
    (d : Display) : bool :=
  if isHidden d then false
  else if needsAccounts d && negb hasAccounts then false
  else if negb (requiresApi d) then true
  else if negb (isApiReady context) || negb (isApiConnected context) then false
  else if needsSudo d && negb hasSudo then false
  else match missing (api context) d with [] => true | _ :: _ => false end.

(** Group keys in first-seen order. *)
Fixpoint firstSeen (keys : list string) : list string :=
  match keys with
  | [] => []
  | k :: rest => k :: List.filter (fun k' => negb (String.eqb k' k)) (firstSeen rest)
  end.

(** The routes of one group, in input order. *)
Definition members (routing : list Route) (k : string) : list Route :=
  List.filter (fun r => String.eqb (group r) k) routing.

(** Step 1: the partition into groups. *)
Definition partition (routing : list Route) : list (string * list Route) :=
  map (fun k => (k, members routing k)) (firstSeen (map group routing)).

(** Steps 2 and 3: keep the visible routes, drop the groups left empty. *)
Definition computeVisibleGroups (routing : list Route)
    (groupDisplayNames : string -> option string) (context : ApiProps)
    (hasAccounts hasSudo : bool) : list Group :=
  List.filter nonEmpty
    (map (fun kr : string * list Route =>
            {| g_name := groupDisplayNames (fst kr);
               routes := List.filter
                 (fun r => routeVisible context hasAccounts hasSudo (display r))
                 (snd kr) |})
         (partition routing)).

(** The property that holds one group of a partition. *)
Definition entry (groupDisplayNames : string -> option string)
    (routing : list Route) (k : string) : string * Group :=
  (k, {| g_name := groupDisplayNames k; routes := members routing k |}).

(** The object that holds a partition: one property per group. *)
Definition asObject (groupDisplayNames : string -> option string)
    (parts : list (string * list Route)) : JS.Obj Group :=
  map (fun kr : string * list Route =>
         (fst kr, {| g_name := groupDisplayNames (fst kr); routes := snd kr |}))
      parts.

End Spec.

(** ** The life of the menu module

    Everything that can touch the diagnostics log is a call of
    [checkVisible], made directly or through a render's [extractGroups]. *)

Module Process.
Import Menu.

Inductive Event :=
| CheckVisible (name : string) (props : ApiProps) (hasAccounts hasSudo : bool)
               (d : Display)
| ExtractGroups (routing : list Route) (groupNames : string -> option string)
                (props : ApiProps) (hasAccounts hasSudo : bool).

Definition step (e : Event) (st : Log) : Log :=
  match e with
  | CheckVisible name props ha hs d => snd (checkVisible name props ha hs d st)
  | ExtractGroups routing gn props ha hs =>
      snd (extractGroups routing gn props ha hs st)
  end.

(** The log after a sequence of events, oldest first. *)
Definition exec (es : list Event) (st : Log) : Log :=
  fold_left (fun st e => step e st) es st.

(** The console lines written for a route. *)
Definition linesFor (route : string) (st : Log) : list Warning :=
  List.filter (fun w => String.eqb (w_route w) route) (console st).

(** How many times a diagnostic was emitted for a route. *)
Definition emissions (route : string) (st : Log) : nat :=
  length (linesFor route st).

(** What holds of the log throughout the life of the module: recorded
    messages are not empty, and the console has, for each route, exactly
    the line of the message recorded for it. *)
Definition consistent (st : Log) : Prop :=
  forall route : string,
    match disabledLog st !! route with
    | Some m => m <> "" /\
                linesFor route st =
                  [{| w_route := route; w_line := warn_line route m |}]
    | None => linesFor route st = []
    end.

(** How the log may change from one moment to a later one: it stays
    consistent and the map keeps every entry it had. *)
Definition advance (st st' : Log) : Prop :=
  consistent st -> consistent st' /\ disabledLog st ⊆ disabledLog st'.

End Process.

(** ** The staking account row *)

Module Account.

Inductive Role := Bonded | Guarantor | Candidate | Validator.

(** The text held by the [role] state. *)
Definition label (r : Role) : string :=
  match r with
  | Bonded => "Bonded"
  | Guarantor => "Guarantor"
  | Candidate => "Candidate"
  | Validator => "Validator"
  end.

(** [IndividualExposure]; [value] is the decoded balance. *)
Record IndividualExposure := { who : string; value : N }.

(** The field of [Guarantee] the component reads. *)
Record Guarantee := { targets : list IndividualExposure }.

(** The field of [SortedTargets] the component reads; it is optional. *)
Record SortedTargets := { waitingIds : option (list string) }.

(** [guarantorInfo && guarantorInfo.targets.length != 0] *)
Definition isGuarantor (guarantorInfo : option Guarantee) : bool :=
  match guarantorInfo with
  | None => false
  | Some g => negb (length (targets g) =? 0)%nat
  end.

(** [validators && (validators.map(e => e.toString())?.indexOf(stashId) != -1)] *)
Definition isValidator (validators : option (list string)) (stashId : string)
  : bool :=
  match validators with
  | None => false
  | Some vs => JS.includes stashId vs
  end.

(** [targets && (targets.waitingIds?.indexOf(stashId) != -1)]: when
    [waitingIds] is absent the optional call yields [undefined], and
    [undefined != -1] is true. *)
Definition isCandidate (targets : option SortedTargets) (stashId : string)
  : bool :=
  match targets with
  | None => false
  | Some t =>
      match waitingIds t with
      | None => true
      | Some ids => JS.includes stashId ids
      end
  end.

(** The branch of the role effect. *)
Definition classifyRole (isGuarantor isValidator isCandidate : bool) : Role :=
  if isGuarantor then Guarantor
  else if isCandidate then Candidate
  else if isValidator then Validator
  else Bonded.

(** [useState('Bonded')] *)
Definition initialRole : Role := Bonded.

(** The role effect: the value passed to [setRole]. *)
Definition roleEffect (guarantorInfo : option Guarantee)
    (validators : option (list string)) (targets : option SortedTargets)
    (stashId : string) : Role :=
  classifyRole (isGuarantor guarantorInfo)
               (isValidator validators stashId)
               (isCandidate targets stashId).

(** The guarantee-target effect: [setGuaranteeTargets] runs only when
    [guarantorInfo != null]. *)
Definition guaranteeTargetsEffect (guarantorInfo : option Guarantee)
    (guaranteeTargets : list IndividualExposure) : list IndividualExposure :=
  match guarantorInfo with
  | Some g => targets g
  | None => guaranteeTargets
  end.

(** [new BN(Number(value).toString())].  The balance reaches the
    component through [JSON.parse(JSON.stringify(guarantors))]; in
    whatever form the codec writes it, [Number(value)] is the binary64
    value nearest to it.

    From 10^21 on the number prints in exponential notation, and what
    the constructor of the big-integer library makes of such a text is
    not in the sources: [exponential m] stands for it, [Some b] when the
    constructor yields the big integer [b] (bn.js 4.12.0 reads the
    characters as digits whatever they are and yields 23521 for the text
    [1e+21]), [None] when it raises, as a constructor that checks its
    digits does. *)
Definition toBN (exponential : N -> option N) (value : N) : option N :=
  let m := JS.Number_of value in
  match JS.Number_toString m with
  | Some text => JS.BN_of_string text
  | None => exponential m
  end.

(** The stake-value effect: the value passed to [setStakeValue], the
    [reduce] from [BN_ZERO]; [None] when the constructor raises for some
    summand. *)
Definition stakeValue (exponential : N -> option N)
    (guaranteeTargets : list IndividualExposure) : option N :=
  fold_left (fun (total : option N) (t : IndividualExposure) =>
               tot ← total; v ← toBN exponential (value t);
               Some (tot + v)%N)
            guaranteeTargets (Some 0%N).

(** The sum the specification asks for. *)
Definition exactStake (guaranteeTargets : list IndividualExposure) : N :=
  fold_right (fun t acc => (value t + acc)%N) 0%N guaranteeTargets.

End Account.

(** ** Concrete inputs used in the examples below *)

Module Examples.
Import Menu.

Definition stakingApi : ApiProps :=
  {| api := {[ "query.staking.ledger" ]};
     isApiConnected := true; isApiReady := true |}.

Definition offline : ApiProps :=
  {| api := ∅; isApiConnected := false; isApiReady := false |}.

Definition hiddenStaking : Display :=
  {| isHidden := true; needsAccounts := false;
     needsApi := Some ["query.staking.ledger"]; needsSudo := false |}.

Definition sudoOnly : Display :=
  {| isHidden := false; needsAccounts := false;
     needsApi := Some ["tx.sudo.setKey"]; needsSudo := true |}.

Definition marketOnly : Display :=
  {| isHidden := false; needsAccounts := false;
     needsApi := Some ["tx.market.placeStorageOrder"]; needsSudo := false |}.

Definition always : Display :=
  {| isHidden := false; needsAccounts := false;
     needsApi := None; needsSudo := false |}.

Definition noNames (k : string) : option string := None.

Definition menuNames (k : string) : option string :=
  if String.eqb k "accounts" then Some "Accounts"
  else if String.eqb k "network" then Some "Network"
  else if String.eqb k "settings" then Some "Settings"
  else None.

Definition accountsRoute : Route :=
  {| name := "accounts"; group := "accounts"; display := always |}.

Definition stakingRoute : Route :=
  {| name := "staking"; group := "network"; display := hiddenStaking |}.

Definition explorerRoute : Route :=
  {| name := "explorer"; group := "network"; display := always |}.

Definition sudoRoute : Route :=
  {| name := "sudo"; group := "developer"; display := sudoOnly |}.

Definition menu : list Route :=
  [accountsRoute; stakingRoute; explorerRoute; sudoRoute].

Definition networkGroup : Group :=
  {| g_name := Some "Network"; routes := [explorerRoute] |}.

Definition menuGroups : list Group :=
  [ {| g_name := Some "Accounts"; routes := [accountsRoute] |}; networkGroup ].

(** Two routes whose group keys are numerals. *)
Definition second : Route :=
  {| name := "second"; group := "2"; display := always |}.

Definition first : Route :=
  {| name := "first"; group := "1"; display := always |}.

(** An address and the chain data of some accounts. *)
Definition stash : string := "5EYCAe5ijiYfyeZ2JJCGq56LmPyNRAKzpG4QkoQkkQNB5e6Z".

Definition waitingOthers : Account.SortedTargets :=
  {| Account.waitingIds := Some [] |}.

Definition targetsNotLoaded : Account.SortedTargets :=
  {| Account.waitingIds := None |}.

Definition smallTargets : list Account.IndividualExposure :=
  [ {| Account.who := "5Alice"; Account.value := 100 |};
    {| Account.who := "5Bob"; Account.value := 250 |} ].

(** One target holding 2^53 + 1 units. *)
Definition largeTargets : list Account.IndividualExposure :=
  [ {| Account.who := "5Alice"; Account.value := 9007199254740993 |} ].

(** The sudo route is checked without the sudo key. *)
Definition sudoDenied : Process.Event :=
  Process.CheckVisible "sudo" stakingApi true false sudoOnly.

(** The same route is checked once the key is there; the endpoint it
    needs is still missing. *)
Definition sudoGranted : Process.Event :=
  Process.CheckVisible "sudo" stakingApi true true sudoOnly.

(** A render of the whole menu without the sudo key. *)
Definition renderMenu : Process.Event :=
  Process.ExtractGroups menu menuNames stakingApi true false.

End Examples.

(** ** The rest of the menu component *)

Module MenuView.
Import Menu.

(** [!!sudoKey && allAccounts.some((address) => sudoKey.eq(address))];
    [eq] stands for the comparison [AccountId.eq] of the type library. *)
Definition hasSudo (eq : string -> string -> bool) (sudoKey : option string)
    (allAccounts : list string) : bool :=
  match sudoKey with
  | None => false
  | Some key => existsb (fun address => eq key address) allAccounts
  end.

(** [extractGroups(routeRef.current, groupRef.current, apiProps,
    hasAccounts, hasSudo)] *)
Definition visibleGroups (routes : list Route)
    (groupNames : string -> option string) (apiProps : ApiProps)
    (hasAccounts : bool) (eq : string -> string -> bool)
    (sudoKey : option string) (allAccounts : list string)
  : M (option (list Group)) :=
  extractGroups routes groupNames apiProps hasAccounts
    (hasSudo eq sudoKey allAccounts).

(** [routeRef.current.find((route) =>
    location.pathname.startsWith(`/${route.name}`)) || null] *)
Definition activeRoute (routes : list Route) (pathname : string)
  : option Route :=
  List.find (fun route => String.prefix ("/" +:+ name route) pathname) routes.

(** [!apiProps.isApiReady || !apiProps.isApiConnected] *)
Definition isLoading (apiProps : ApiProps) : bool :=
  negb (isApiReady apiProps) || negb (isApiConnected apiProps).

End MenuView.

(** ** The storage route of [apps-routing] *)

Module Routing.
Import Menu.

(** [create(t)], restricted to the fields the menu reads; the text is
    the only part that depends on [t]. *)
Definition create : Route :=
  {| name := "storage";
     group := "storage";
     display := {| isHidden := false; needsAccounts := false;
                   needsApi := Some [ "tx.market.placeStorageOrder";
                                      "query.market.files" ];
                   needsSudo := false |} |}.

End Routing.

(** ** The rest of the staking account row *)

Module Staking.

(** The fields of [UnappliedSlash] that [extractSlashes] reads: the
    slashed validator and the nominators slashed with it, each with an
    amount. *)
Record UnappliedSlash := {
  validator : string;
  others : list (string * N)
}.

Record Slash := {
  era : N;
  slashes : list UnappliedSlash
}.

(** [validator.eq(stashId) ||
     others.some(([nominatorId]) => nominatorId.eq(stashId))];
    [eq] stands for [AccountId.eq]. *)
Definition concerns (eq : string -> string -> bool) (stashId : string)
    (s : UnappliedSlash) : bool :=
  eq (validator s) stashId
  || existsb (fun o : string * N => eq (fst o) stashId) (others s).

(** [extractSlashes (stashId, allSlashes = [])] *)
Definition extractSlashes (eq : string -> string -> bool) (stashId : string)
    (allSlashes : option (list (N * list UnappliedSlash))) : list Slash :=
  List.filter (fun s => negb (length (slashes s) =? 0)%nat)
    (map (fun ea : N * list UnappliedSlash =>
            {| era := fst ea;
               slashes := List.filter (concerns eq stashId) (snd ea) |})
         (match allSlashes with Some l => l | None => [] end)).

(** The guarantee targets after a series of updates of the guarantor
    data, each handled by the guarantee-target effect. *)
Definition targetsAfter (updates : list (option Account.Guarantee))
    (guaranteeTargets : list Account.IndividualExposure)
  : list Account.IndividualExposure :=
  fold_left (fun current info => Account.guaranteeTargetsEffect info current)
            updates guaranteeTargets.

(** *** What the row offers *)

Record StakingLedger := { active : N }.

Record StakingAccount := {
  stakingLedger : option StakingLedger;
  redeemable : option N
}.

(** The fields of [StakerState] the buttons depend on. *)
Record StakerState := {
  isLoading : bool;
  isOwnController : bool;
  isOwnStash : bool;
  isStashNominating : bool;
  isStashValidating : bool;
  sessionIds : list string;
  hexSessionIdNext : option string
}.

(** [!!stakingAccount?.stakingLedger &&
     !stakingAccount.stakingLedger.active.isEmpty] *)
Definition hasBonded (stakingAccount : option StakingAccount) : bool :=
  match stakingAccount with
  | None => false
  | Some a =>
      match stakingLedger a with
      | None => false
      | Some l => negb (active l =? 0)%N
      end
  end.

(** What a button or a menu item triggers: the [chill] transaction,
    [withdrawFunds], or the toggle of one of the forms. *)
Inductive Action :=
| Chill | SetSession | Validate | Nominate | Settings
| BondExtra | Unbond | Rebond | Withdraw | SetController
| RewardDestination | Kick | Inject | CutGuarantee.

Record Control := { action : Action; disabled : bool }.

(** The buttons of the last cell, left to right. *)
Definition buttons (info : StakerState) (isDisabled : bool)
    (stakingAccount : option StakingAccount) : list Control :=
  if isLoading info then []
  else
    (if isStashNominating info || isStashValidating info
     then [ {| action := Chill;
               disabled := negb (isOwnController info) || isDisabled |} ]
     else
       [ if (length (sessionIds info) =? 0)%nat
            || match hexSessionIdNext info with
               | Some h => String.eqb h "0x"
               | None => false
               end
         then {| action := SetSession;
                 disabled := negb (isOwnController info) || isDisabled |}
         else {| action := Validate;
                 disabled := negb (isOwnController info) || isDisabled
                             || negb (hasBonded stakingAccount) |};
         {| action := Nominate;
            disabled := negb (isOwnController info) || isDisabled
                        || negb (hasBonded stakingAccount) |} ])
    ++ [ {| action := Settings; disabled := isDisabled |} ].

(** [!stakingAccount || !stakingAccount.stakingLedger ||
     stakingAccount.stakingLedger.active.isEmpty] *)
Definition nothingActive (stakingAccount : option StakingAccount) : bool :=
  match stakingAccount with
  | None => true
  | Some a =>
      match stakingLedger a with
      | None => true
      | Some l => (active l =? 0)%N
      end
  end.

(** [!stakingAccount || !stakingAccount.redeemable ||
     !stakingAccount.redeemable.gtn(0)] *)
Definition nothingRedeemable (stakingAccount : option StakingAccount) : bool :=
  match stakingAccount with
  | None => true
  | Some a =>
      match redeemable a with
      | None => true
      | Some r => negb (0 <? r)%N
      end
  end.

(** The items of the settings menu, top to bottom; the menu is inside
    the [!isLoading &&] block that holds the buttons, so a loading row
    has none.  [freeBalance] is [balancesAll?.freeBalance], [hasKick] is
    [isFunction(api.tx.staking.kick)], [targetValidators] is
    [targets.validators] of the [targets] property, which the row always
    receives. *)
Definition settingsItems (info : StakerState) (role : Account.Role)
    (isMaxwell hasKick : bool) (freeBalance : option N)
    (stakingAccount : option StakingAccount)
    (targetValidators : option (list string)) : list Control :=
  let own := isOwnController info in
  let noTargets :=
    match targetValidators with
    | None => true
    | Some vs => (length vs =? 0)%nat
    end in
  if isLoading info then [] else
  [ {| action := BondExtra;
       disabled := negb (isOwnStash info)
                   || negb (match freeBalance with
                            | Some b => (0 <? b)%N
                            | None => false
                            end) |};
    {| action := Unbond;
       disabled := negb own || nothingActive stakingAccount |};
    {| action := Rebond;
       disabled := negb own || nothingActive stakingAccount |};
    {| action := Withdraw;
       disabled := negb own || nothingRedeemable stakingAccount |};
    {| action := SetController; disabled := negb (isOwnStash info) |} ]
  ++ (if isMaxwell
      then [ {| action := RewardDestination; disabled := negb own |} ]
      else [])
  ++ (match role with
      | Account.Bonded | Account.Guarantor => []
      | _ =>
          (if isStashValidating info
           then {| action := Validate; disabled := negb own |}
                :: (if hasKick
                    then [ {| action := Kick; disabled := negb own |} ]
                    else [])
           else [])
          ++ [ {| action := SetSession; disabled := negb own |};
               {| action := Inject; disabled := false |} ]
      end)
  ++ (match role with
      | Account.Validator | Account.Candidate => []
      | _ =>
          [ {| action := Nominate; disabled := negb own || noTargets |};
            {| action := CutGuarantee; disabled := negb own || noTargets |} ]
      end).



End Staking.

(** ** The icon component *)

Module IconView.








End IconView.

(** ** What a visibility check reports *)

Module Diagnostics.
Import Menu.

(** The message [checkVisible] hands to [logDisabled], if it gets to
    call it. *)
Definition diagnosis (props : ApiProps) (hasAccounts hasSudo : bool)
    (d : Display) : option string :=
  if isHidden d then None
  else if needsAccounts d && negb hasAccounts then None
  else match needsApi d with
  | None => None
  | Some needs =>
      if negb (isApiReady props) || negb (isApiConnected props) then None
      else if needsSudo d && negb hasSudo then Some sudo_message
      else match findMissingApis (api props) needs with
           | [] => None
           | notFound => Some (api_message notFound)
           end
  end.

(** The visibility check of one route of the table. *)
Definition checkRoute (props : ApiProps) (hasAccounts hasSudo : bool)
    (r : Route) : M bool :=
  checkVisible (name r) props hasAccounts hasSudo (display r).

End Diagnostics.

(** ** More concrete inputs *)

Module Samples.
Import Menu.

(** A log in which an empty message was recorded for the sudo route. *)
Definition emptyRecorded : Log :=
  {| disabledLog := {[ "sudo" := "" ]}; console := [] |}.

Definition toStringRoute : Route :=
  {| name := "broken"; group := "toString"; display := Examples.always |}.

Definition stakingLegacy : Route :=
  {| name := "staking-legacy"; group := "network";
     display := Examples.always |}.

Definition stakingOpen : Route :=
  {| name := "staking"; group := "network"; display := Examples.always |}.

(** A stash whose controller key is not among the user's accounts. *)
Definition watched : Staking.StakerState :=
  {| Staking.isLoading := false; Staking.isOwnController := false;
     Staking.isOwnStash := true; Staking.isStashNominating := false;
     Staking.isStashValidating := false; Staking.sessionIds := [];
     Staking.hexSessionIdNext := None |}.

(** A stash with its controller at hand. *)
Definition owned : Staking.StakerState :=
  {| Staking.isLoading := false; Staking.isOwnController := true;
     Staking.isOwnStash := true; Staking.isStashNominating := false;
     Staking.isStashValidating := false; Staking.sessionIds := [];
     Staking.hexSessionIdNext := None |}.

Definition bonded : Staking.StakingAccount :=
  {| Staking.stakingLedger := Some {| Staking.active := 5000 |};
     Staking.redeemable := None |}.

End Samples.

(** * Properties *)

Import Menu Process.

(** ** Bookkeeping for computations on the log *)

Lemma bind_fst {A B} (m : M A) (k : A -> M B) (st : Log) :
  fst (bind m k st) = fst (k (fst (m st)) (snd (m st))).
Proof. unfold bind. destruct (m st); reflexivity. Qed.

Lemma bind_snd {A B} (m : M A) (k : A -> M B) (st : Log) :
  snd (bind m k st) = snd (k (fst (m st)) (snd (m st))).
Proof. unfold bind. destruct (m st); reflexivity. Qed.

Lemma findMissingApis_nil (caps : gset string) (needs : list string) :
  findMissingApis caps needs = [] <-> Forall (fun c => c ∈ caps) needs.
Proof.
  unfold findMissingApis. induction needs as [|c needs IH]; simpl.
  - split; [constructor | reflexivity].
  - destruct (bool_decide (c ∈ caps)) eqn:E; simpl.
    + apply bool_decide_eq_true in E. rewrite IH. split.
      * intros H. constructor; assumption.
      * intros H. inversion H; assumption.
    + apply bool_decide_eq_false in E. split; [discriminate|].
      intros H. inversion H; contradiction.
Qed.

Lemma length_eqb_0 {A} (l : list A) : (length l =? 0)%nat = true <-> l = [].
Proof. destruct l; simpl; split; congruence. Qed.

(** The verdict of [checkVisible] never depends on the log, and it is
    the one the specification's chain gives. *)
Lemma checkVisible_verdict name props ha hs d st :
  fst (checkVisible name props ha hs d st)
  = Spec.routeVisible props ha hs d.
Proof.
  unfold checkVisible, Spec.routeVisible, Spec.missing,
    Spec.requiresApi, Spec.requiredCapabilities.
  destruct (isHidden d); [reflexivity|].
  destruct (needsAccounts d && negb ha); [reflexivity|].
  destruct (needsApi d) as [needs|]; [|reflexivity]. simpl.
  destruct (negb (isApiReady props) || negb (isApiConnected props));
    [reflexivity|].
  destruct (needsSudo d && negb hs).
  - rewrite bind_fst. reflexivity.
  - rewrite bind_fst. simpl. unfold findMissingApis.
    destruct (List.filter _ needs); reflexivity.
Qed.

(** ** C1 *)

(** C1, as stated, fails: a route with a non-empty capability list whose
    capabilities are all present on a connected, ready API is still not
    visible when it is force-hidden. *)
Lemma checkVisible_capabilities_counterexample :
  ~ (fst (checkVisible "staking" Examples.stakingApi true true
            Examples.hiddenStaking start) = true
     <-> (isApiConnected Examples.stakingApi = true
          /\ isApiReady Examples.stakingApi = true
          /\ Forall (fun c => c ∈ api Examples.stakingApi)
                    ["query.staking.ledger"])).
Proof.
  intros [_ H]. rewrite checkVisible_verdict in H.
  assert (Hv : Spec.routeVisible Examples.stakingApi true true
                 Examples.hiddenStaking = false) by reflexivity.
  rewrite Hv in H. enough (false = true) by discriminate. apply H.
  repeat split. constructor; [|constructor].
  unfold Examples.stakingApi; simpl. set_solver.
Qed.

(** C1 (amended): for every route whose [needsApi] list is non-empty,
    [checkVisible] returns true if and only if the route is not hidden,
    accounts are present when it needs them, the API is connected and
    ready, the sudo key is present when it needs it, and every endpoint
    of the list is in the capability set. *)
Theorem checkVisible_required_capabilities :
  forall name props ha hs h na ns c needs st,
    fst (checkVisible name props ha hs
           {| isHidden := h; needsAccounts := na;
              needsApi := Some (c :: needs); needsSudo := ns |} st) = true
    <-> (h = false
         /\ (na = false \/ ha = true)
         /\ isApiConnected props = true /\ isApiReady props = true
         /\ (ns = false \/ hs = true)
         /\ Forall (fun x => x ∈ api props) (c :: needs)).
Proof.
  intros. rewrite <- findMissingApis_nil. unfold checkVisible; simpl.
  destruct h; simpl; [intuition discriminate|].
  destruct na, ha; simpl; try (intuition discriminate).
  all: destruct (isApiReady props), (isApiConnected props); simpl;
    try (intuition discriminate).
  all: destruct ns, hs; simpl; rewrite ?bind_fst; simpl;
    try (intuition discriminate).
  all: rewrite length_eqb_0; intuition.
Qed.

(** ** C8 *)

(** C8: a route without [needsApi] gets the same verdict whatever the
    capability set, the connection flags and the log are. *)
Theorem checkVisible_without_api_independent :
  forall name ha hs h na ns api1 conn1 ready1 api2 conn2 ready2 st1 st2,
    fst (checkVisible name
           {| api := api1; isApiConnected := conn1; isApiReady := ready1 |}
           ha hs
           {| isHidden := h; needsAccounts := na;
              needsApi := None; needsSudo := ns |} st1)
    = fst (checkVisible name
           {| api := api2; isApiConnected := conn2; isApiReady := ready2 |}
           ha hs
           {| isHidden := h; needsAccounts := na;
              needsApi := None; needsSudo := ns |} st2).
Proof.
  intros. unfold checkVisible; simpl.
  destruct h; [reflexivity|]. destruct (na && negb ha); reflexivity.
Qed.

(** ** C6 *)

(** C6: a route that reaches the sudo check, needs sudo and has no sudo
    key is not visible.  The only effect is [logDisabled] with the sudo
    message under the route name: when nothing truthy is recorded for the
    name the message is recorded and one line is written, otherwise the
    log is left as it is.  The capability set and the [needsApi] list
    play no part, the check coming before [findMissingApis]. *)
Theorem checkVisible_sudo_unavailable :
  forall name props ha hs d needs st,
    isHidden d = false ->
    needsAccounts d && negb ha = false ->
    needsApi d = Some needs ->
    isApiReady props = true ->
    isApiConnected props = true ->
    needsSudo d = true ->
    hs = false ->
    let st' := snd (checkVisible name props ha hs d st) in
    fst (checkVisible name props ha hs d st) = false
    /\ (JS.truthy_string (disabledLog st !! name) = false ->
        disabledLog st' = <[name := "Sudo key not available"]> (disabledLog st)
        /\ console st' = console st ++
             [{| w_route := name;
                 w_line := "Disabling " +:+ name +:+ ": Sudo key not available" |}])
    /\ (JS.truthy_string (disabledLog st !! name) = true -> st' = st).
Proof.
  intros name props ha hs d needs st Hh Ha Hn Hr Hc Hs ->.
  unfold checkVisible. rewrite Hh, Ha, Hn, Hr, Hc, Hs. simpl.
  unfold bind, logDisabled.
  destruct (JS.truthy_string (disabledLog st !! name)); simpl.
  - split; [reflexivity|]. split; [discriminate | reflexivity].
  - split; [reflexivity|]. split; [split; reflexivity | discriminate].
Qed.

Lemma checkVisible_sudo_unavailable_witness :
  fst (checkVisible "sudo" Examples.stakingApi true false
         Examples.sudoOnly start) = false
  /\ console (snd (checkVisible "sudo" Examples.stakingApi true false
                     Examples.sudoOnly start))
     = [{| w_route := "sudo";
           w_line := "Disabling sudo: Sudo key not available" |}].
Proof.
  destruct (checkVisible_sudo_unavailable "sudo" Examples.stakingApi true
              false Examples.sudoOnly ["tx.sudo.setKey"] start
              eq_refl eq_refl eq_refl eq_refl eq_refl eq_refl eq_refl)
    as (Hv & Hnew & _).
  split; [exact Hv|]. exact (proj2 (Hnew eq_refl)).
Defined.

(** ** C2 *)

(** C2: the role is decided by the first true flag in the order
    guarantor, candidate, validator; with none it is [Bonded]. *)
Theorem classifyRole_precedence :
  (forall isValidator isCandidate : bool,
      Account.classifyRole true isValidator isCandidate = Account.Guarantor)
  /\ (forall isValidator : bool,
      Account.classifyRole false isValidator true = Account.Candidate)
  /\ Account.classifyRole true true true = Account.Guarantor
  /\ Account.classifyRole false true true = Account.Candidate
  /\ Account.classifyRole false true false = Account.Validator
  /\ Account.classifyRole false false false = Account.Bonded.
Proof. repeat split. Qed.

(** The role effect of the component is [classifyRole] on the three
    flags of the address; a guarantor that is also an active validator is
    shown as a guarantor. *)
Lemma roleEffect_guarantor_first g validators targets stashId :
  Account.targets g <> [] ->
  Account.roleEffect (Some g) validators targets stashId = Account.Guarantor.
Proof.
  intros H. unfold Account.roleEffect, Account.isGuarantor.
  destruct (Account.targets g); [contradiction | reflexivity].
Qed.

(** ** C4 *)

(** C4, as stated, fails: with the guarantor data null, an address found
    in the loaded validator set is a [Validator], not [Bonded]. *)
Lemma roleEffect_absent_counterexample :
  Account.roleEffect None (Some [Examples.stash])
    (Some Examples.waitingOthers) Examples.stash = Account.Validator
  /\ Account.roleEffect None (Some [Examples.stash])
       (Some Examples.waitingOthers) Examples.stash <> Account.Bonded.
Proof. split; [reflexivity | discriminate]. Qed.

Lemma includes_In x xs : JS.includes x xs = true <-> In x xs.
Proof.
  unfold JS.includes. rewrite existsb_exists. split.
  - intros (y & Hy & E). apply String.eqb_eq in E. subst. assumption.
  - intros H. exists x. split; [assumption | apply String.eqb_refl].
Qed.

Lemma includes_not_In x xs : JS.includes x xs = false <-> ~ In x xs.
Proof.
  destruct (JS.includes x xs) eqn:E.
  - split; [discriminate | intros H; exfalso; apply H, includes_In, E].
  - split; [intros _ H; apply includes_In in H; congruence | reflexivity].
Qed.

(** C4 (amended): null guarantor data is read as a guarantee without
    targets and an absent validator set as an empty set, the role being
    decided by the other inputs.  With the candidate-pool list loaded, the
    role is [Bonded] exactly when the guarantor data is null or without
    targets, the validator set is absent or does not hold the address, and
    the candidate-pool list does not hold the address; so it is [Bonded]
    while guarantor data and validator set are both not yet loaded and
    the address is not a candidate.  The role is [Bonded] before the
    effect has run.  A route that needs the API is not visible while the
    API is not connected or not ready, and the log is left alone. *)
Theorem absent_data_defaults :
  (forall validators targets stashId,
      Account.roleEffect None validators targets stashId
      = Account.roleEffect (Some {| Account.targets := [] |})
          validators targets stashId)
  /\ (forall g targets stashId,
      Account.roleEffect g None targets stashId
      = Account.roleEffect g (Some []) targets stashId)
  /\ (forall g validators ids stashId,
      Account.roleEffect g validators
        (Some {| Account.waitingIds := Some ids |}) stashId = Account.Bonded
      <-> (forall info, g = Some info -> Account.targets info = [])
          /\ (forall vs, validators = Some vs -> ~ In stashId vs)
          /\ ~ In stashId ids)
  /\ (forall ids stashId,
      ~ In stashId ids ->
      Account.roleEffect None None
        (Some {| Account.waitingIds := Some ids |}) stashId = Account.Bonded)
  /\ Account.initialRole = Account.Bonded
  /\ (forall name caps conn ready ha hs h na ns needs st,
      conn && ready = false ->
      checkVisible name
        {| api := caps; isApiConnected := conn; isApiReady := ready |} ha hs
        {| isHidden := h; needsAccounts := na;
           needsApi := Some needs; needsSudo := ns |} st
      = (false, st)).
Proof.
  assert (Hiff : forall g validators ids stashId,
      Account.roleEffect g validators
        (Some {| Account.waitingIds := Some ids |}) stashId = Account.Bonded
      <-> (forall info, g = Some info -> Account.targets info = [])
          /\ (forall vs, validators = Some vs -> ~ In stashId vs)
          /\ ~ In stashId ids).
  { intros g validators ids stashId.
    unfold Account.roleEffect, Account.classifyRole, Account.isGuarantor,
      Account.isValidator, Account.isCandidate. simpl.
    rewrite <- includes_not_In.
    destruct g as [[[|t ts]]|]; simpl.
    - destruct (JS.includes stashId ids); simpl.
      + split; [discriminate | intros (_ & _ & H); discriminate].
      + destruct validators as [vs|].
        * destruct (JS.includes stashId vs) eqn:Ev.
          -- split; [discriminate|]. intros (_ & H & _). exfalso.
             apply (H vs eq_refl). apply includes_In, Ev.
          -- split; [|reflexivity]. intros _.
             split; [intros info [= <-]; reflexivity|].
             split; [|reflexivity]. intros vs' [= <-].
             apply includes_not_In, Ev.
        * split; [|reflexivity]. intros _.
          split; [intros info [= <-]; reflexivity|].
          split; [discriminate | reflexivity].
    - split; [discriminate|]. intros (H & _). discriminate (H _ eq_refl).
    - destruct (JS.includes stashId ids); simpl.
      + split; [discriminate | intros (_ & _ & H); discriminate].
      + destruct validators as [vs|].
        * destruct (JS.includes stashId vs) eqn:Ev.
          -- split; [discriminate|]. intros (_ & H & _). exfalso.
             apply (H vs eq_refl). apply includes_In, Ev.
          -- split; [|reflexivity]. intros _. split; [discriminate|].
             split; [|reflexivity]. intros vs' [= <-].
             apply includes_not_In, Ev.
        * split; [|reflexivity]. intros _. split; [discriminate|].
          split; [discriminate | reflexivity]. }
  split; [reflexivity|]. split; [reflexivity|]. split; [exact Hiff|].
  split; [|split; [reflexivity|]].
  - intros ids stashId H. apply Hiff.
    split; [discriminate|]. split; [discriminate | exact H].
  - intros name caps conn ready ha hs h na ns needs st H.
    unfold checkVisible; simpl.
    destruct h; [reflexivity|]. destruct (na && negb ha); [reflexivity|].
    destruct conn, ready; simpl in *; try discriminate; reflexivity.
Qed.

Lemma absent_data_defaults_witness :
  Account.roleEffect None None (Some Examples.waitingOthers) Examples.stash
  = Account.Bonded
  /\ checkVisible "market" Examples.offline true false Examples.marketOnly
       start = (false, start).
Proof.
  destruct absent_data_defaults as (_ & _ & _ & Hrole & _ & Hroute).
  split.
  - apply (Hrole [] Examples.stash). intros H. exact H.
  - exact (Hroute "market" ∅ false false true false false false false
             ["tx.market.placeStorageOrder"] start eq_refl).
Defined.

(** A case the statement above leaves aside: while the targets object
    is there but its [waitingIds] list is not yet loaded, the comparison
    [undefined != -1] holds, and an address with no guarantor data and no
    validator set is shown as a [Candidate]. *)
Lemma roleEffect_waitingIds_not_loaded :
  Account.roleEffect None None (Some Examples.targetsNotLoaded) Examples.stash
  = Account.Candidate.
Proof. reflexivity. Qed.

(** ** C3 *)

(** The example of the specification: 100 and 250 give 350. *)
Example stakeValue_small :
  forall exponential,
    Account.stakeValue exponential Examples.smallTargets = Some 350%N.
Proof. intros exponential. vm_compute. reflexivity. Qed.

(** C3 does not hold of the code: each value passes through [Number]
    before it reaches the big-integer sum, so a target of 2^53 + 1 units
    contributes 2^53. *)
Theorem stakeValue_loses_precision :
  forall exponential,
    Account.stakeValue exponential Examples.largeTargets
    = Some 9007199254740992%N
    /\ Account.exactStake Examples.largeTargets = 9007199254740993%N.
Proof. intros exponential. split; vm_compute; reflexivity. Qed.

(** ** Effectful maps and filters *)

Section Traversals.
Context {A B : Type}.

Lemma filterM_fst (p : A -> M bool) (v : A -> bool) :
  (forall x st, fst (p x st) = v x) ->
  forall l st, fst (filterM p l st) = List.filter v l.
Proof.
  intros Hp. induction l as [|x l IH]; intros st; simpl; [reflexivity|].
  rewrite bind_fst, bind_fst. simpl. rewrite IH, Hp. reflexivity.
Qed.

Lemma mapM_fst (f : A -> M B) (g : A -> B) :
  (forall x st, fst (f x st) = g x) ->
  forall l st, fst (mapM f l st) = map g l.
Proof.
  intros Hf. induction l as [|x l IH]; intros st; simpl; [reflexivity|].
  rewrite bind_fst, bind_fst. simpl. rewrite IH, Hf. reflexivity.
Qed.

(** A reflexive, transitive relation between logs that every call
    respects is respected by the whole traversal. *)
Variable R : Log -> Log -> Prop.
Hypothesis R_refl : forall st, R st st.
Hypothesis R_trans : forall a b c, R a b -> R b c -> R a c.

Lemma filterM_rel (p : A -> M bool) :
  (forall x st, R st (snd (p x st))) ->
  forall l st, R st (snd (filterM p l st)).
Proof.
  intros Hp. induction l as [|x l IH]; intros st; simpl; [apply R_refl|].
  rewrite bind_snd, bind_snd. simpl.
  eapply R_trans; [apply Hp | apply IH].
Qed.

Lemma mapM_rel (f : A -> M B) :
  (forall x st, R st (snd (f x st))) ->
  forall l st, R st (snd (mapM f l st)).
Proof.
  intros Hf. induction l as [|x l IH]; intros st; simpl; [apply R_refl|].
  rewrite bind_snd, bind_snd. simpl.
  eapply R_trans; [apply Hf | apply IH].
Qed.

End Traversals.

(** What [extractGroups] returns, in terms of the object built by the
    [reduce]. *)
Lemma extractGroups_fst routing gn props ha hs st :
  fst (extractGroups routing gn props ha hs st)
  = option_map
      (fun all =>
         List.filter nonEmpty
           (map (fun g => {| g_name := g_name g;
                             routes := List.filter
                               (fun r => Spec.routeVisible props ha hs (display r))
                               (routes g) |})
                (JS.values all)))
      (reduceRoutes gn routing []).
Proof.
  unfold extractGroups. destruct (reduceRoutes gn routing []) as [all|];
    [|reflexivity].
  rewrite bind_fst. simpl. f_equal. f_equal.
  apply mapM_fst. intros g st'. rewrite bind_fst. simpl. f_equal.
  apply filterM_fst. intros r st''. apply checkVisible_verdict.
Qed.

(** ** C5 *)

(** C5: whatever the context flags, the capability set and the log are,
    no group returned by [extractGroups] holds a route whose [isHidden]
    flag is set. *)
Theorem extractGroups_omits_hidden :
  forall routing gn props ha hs st out g r,
    isHidden (display r) = true ->
    fst (extractGroups routing gn props ha hs st) = Some out ->
    In g out ->
    ~ In r (routes g).
Proof.
  intros routing gn props ha hs st out g r Hh Hout Hg Hr.
  rewrite extractGroups_fst in Hout.
  destruct (reduceRoutes gn routing []) as [all|]; [|discriminate].
  simpl in Hout. injection Hout as <-.
  apply filter_In in Hg as [Hg _]. apply in_map_iff in Hg as (g0 & <- & _).
  simpl in Hr. apply filter_In in Hr as [_ Hv].
  unfold Spec.routeVisible in Hv. rewrite Hh in Hv. discriminate.
Qed.

Lemma extractGroups_omits_hidden_witness :
  fst (extractGroups Examples.menu Examples.menuNames Examples.stakingApi
         true false start) = Some Examples.menuGroups
  /\ ~ In Examples.stakingRoute (routes Examples.networkGroup).
Proof.
  split; [vm_compute; reflexivity|].
  apply (extractGroups_omits_hidden Examples.menu Examples.menuNames
           Examples.stakingApi true false start Examples.menuGroups
           Examples.networkGroup Examples.stakingRoute).
  - reflexivity.
  - vm_compute; reflexivity.
  - right; left; reflexivity.
Defined.

(** ** The log through the life of the module *)

Lemma advance_refl st : advance st st.
Proof. intros H. split; [assumption | reflexivity]. Qed.

Lemma advance_trans a b c : advance a b -> advance b c -> advance a c.
Proof.
  intros Hab Hbc Ha. destruct (Hab Ha) as [Hb Sab].
  destruct (Hbc Hb) as [Hc Sbc]. split; [assumption|].
  etransitivity; eassumption.
Qed.

Lemma start_consistent : consistent start.
Proof. intros route. unfold start; simpl. rewrite lookup_empty. reflexivity. Qed.

Lemma truthy_recorded st route m :
  consistent st -> disabledLog st !! route = Some m ->
  JS.truthy_string (disabledLog st !! route) = true.
Proof.
  intros Hc E. specialize (Hc route). rewrite E in Hc. destruct Hc as [Hm _].
  rewrite E. simpl. destruct (String.eqb_spec m ""); [contradiction|reflexivity].
Qed.

Lemma logDisabled_advance route message st :
  message <> "" -> advance st (snd (logDisabled route message st)).
Proof.
  intros Hne Hc. unfold logDisabled.
  destruct (disabledLog st !! route) as [m|] eqn:E.
  - rewrite <- E, (truthy_recorded st route m Hc E). simpl.
    split; [assumption | reflexivity].
  - simpl. split.
    + intros r. simpl. destruct (decide (route = r)) as [<-|Hr].
      * rewrite lookup_insert_eq. split; [assumption|].
        unfold linesFor; simpl. rewrite List.filter_app. simpl.
        rewrite String.eqb_refl. specialize (Hc route). rewrite E in Hc.
        unfold linesFor in Hc. rewrite Hc. reflexivity.
      * rewrite lookup_insert_ne by assumption.
        unfold linesFor; simpl. rewrite List.filter_app. simpl.
        destruct (String.eqb_spec route r); [contradiction|].
        rewrite app_nil_r. apply Hc.
    + apply insert_subseteq. assumption.
Qed.

Lemma api_message_not_empty notFound : api_message notFound <> "".
Proof. unfold api_message. simpl. discriminate. Qed.

Lemma checkVisible_advance name props ha hs d st :
  advance st (snd (checkVisible name props ha hs d st)).
Proof.
  unfold checkVisible.
  destruct (isHidden d); [apply advance_refl|].
  destruct (needsAccounts d && negb ha); [apply advance_refl|].
  destruct (needsApi d) as [needs|]; [|apply advance_refl].
  destruct (negb (isApiReady props) || negb (isApiConnected props));
    [apply advance_refl|].
  destruct (needsSudo d && negb hs).
  - rewrite bind_snd. simpl. apply logDisabled_advance. discriminate.
  - rewrite bind_snd. simpl.
    destruct (negb (length (findMissingApis (api props) needs) =? 0)%nat).
    + apply logDisabled_advance, api_message_not_empty.
    + apply advance_refl.
Qed.

Lemma extractGroups_advance routing gn props ha hs st :
  advance st (snd (extractGroups routing gn props ha hs st)).
Proof.
  unfold extractGroups. destruct (reduceRoutes gn routing []) as [all|];
    [|apply advance_refl].
  rewrite bind_snd. simpl.
  apply (mapM_rel advance advance_refl advance_trans). intros g st'.
  rewrite bind_snd. simpl.
  apply (filterM_rel advance advance_refl advance_trans). intros r st''.
  apply checkVisible_advance.
Qed.

Lemma step_advance e st : advance st (step e st).
Proof.
  destruct e; simpl; [apply checkVisible_advance | apply extractGroups_advance].
Qed.

Lemma exec_advance es : forall st, advance st (exec es st).
Proof.
  induction es as [|e es IH]; intros st; simpl; [apply advance_refl|].
  eapply advance_trans; [apply step_advance | apply IH].
Qed.

Lemma exec_app es es' st : exec (es ++ es') st = exec es' (exec es st).
Proof. unfold exec. apply fold_left_app. Qed.

(** Once a message is recorded for a route, the entry and the console
    lines of the route stay as they are. *)
Lemma recorded_forever es st route m :
  consistent st -> disabledLog st !! route = Some m ->
  disabledLog (exec es st) !! route = Some m
  /\ linesFor route (exec es st) = linesFor route st.
Proof.
  intros Hc E. destruct (exec_advance es st Hc) as [Hc' Hsub].
  assert (E' : disabledLog (exec es st) !! route = Some m)
    by (eapply lookup_weaken; eassumption).
  split; [assumption|].
  specialize (Hc route). specialize (Hc' route). rewrite E in Hc.
  rewrite E' in Hc'. destruct Hc as [_ ->]. destruct Hc' as [_ ->].
  reflexivity.
Qed.

Lemma emissions_consistent st route :
  consistent st ->
  emissions route st
  = match disabledLog st !! route with Some _ => 1%nat | None => 0%nat end.
Proof.
  intros Hc. specialize (Hc route). unfold emissions.
  destruct (disabledLog st !! route); [destruct Hc as [_ ->]|rewrite Hc];
    reflexivity.
Qed.

(** ** C9 *)

(** C9: over any sequence of visibility checks and renders since the
    module was loaded, at most one diagnostic is written for a route name;
    once one is written, nothing that follows adds a line for that
    name. *)
Theorem diagnostics_at_most_once :
  forall es es' route,
    (emissions route (exec es start) <= 1)%nat
    /\ (emissions route (exec es start) = 1%nat ->
        linesFor route (exec (es ++ es') start)
        = linesFor route (exec es start)).
Proof.
  intros es es' route.
  destruct (exec_advance es start start_consistent) as [Hc _].
  rewrite (emissions_consistent _ route Hc). split.
  - destruct (disabledLog (exec es start) !! route); lia.
  - destruct (disabledLog (exec es start) !! route) as [m|] eqn:E;
      [intros _ | discriminate].
    rewrite exec_app. apply (recorded_forever es' _ route m Hc E).
Qed.

Lemma diagnostics_at_most_once_witness :
  emissions "sudo" (exec [Examples.sudoDenied; Examples.renderMenu] start)
  = 1%nat
  /\ linesFor "sudo"
       (exec ([Examples.sudoDenied; Examples.renderMenu]
              ++ [Examples.sudoGranted; Examples.renderMenu]) start)
     = linesFor "sudo"
         (exec [Examples.sudoDenied; Examples.renderMenu] start).
Proof.
  split; [vm_compute; reflexivity|].
  apply (diagnostics_at_most_once
           [Examples.sudoDenied; Examples.renderMenu]
           [Examples.sudoGranted; Examples.renderMenu] "sudo").
  vm_compute; reflexivity.
Defined.

(** ** C10 *)

(** C10: in any state the module can be in, once a message is recorded
    for a route name, [logDisabled] for that name changes nothing and
    writes nothing, whatever message it is given; through everything that
    follows the recorded message stays, the console keeps the single line
    of that message for the route (so a route first reported for the
    missing sudo key never reports missing endpoints), and the map keeps
    all its entries. *)
Theorem logDisabled_first_message_wins :
  forall es route m,
    disabledLog (exec es start) !! route = Some m ->
    (forall m', logDisabled route m' (exec es start) = (tt, exec es start))
    /\ (forall es',
         disabledLog (exec (es ++ es') start) !! route = Some m
         /\ linesFor route (exec (es ++ es') start)
            = [{| w_route := route; w_line := warn_line route m |}]
         /\ disabledLog (exec es start) ⊆ disabledLog (exec (es ++ es') start)).
Proof.
  intros es route m E.
  destruct (exec_advance es start start_consistent) as [Hc _]. split.
  - intros m'. unfold logDisabled.
    rewrite (truthy_recorded _ route m Hc E). reflexivity.
  - intros es'. rewrite exec_app.
    destruct (recorded_forever es' _ route m Hc E) as [E' L].
    split; [assumption|]. split.
    + rewrite L. specialize (Hc route). rewrite E in Hc. apply Hc.
    + apply (exec_advance es' _ Hc).
Qed.

Lemma logDisabled_first_message_wins_witness :
  disabledLog (exec [Examples.sudoDenied] start) !! "sudo"
  = Some "Sudo key not available"
  /\ logDisabled "sudo" "API not available: tx.sudo.setKey"
       (exec [Examples.sudoDenied] start)
     = (tt, exec [Examples.sudoDenied] start)
  /\ linesFor "sudo"
       (exec ([Examples.sudoDenied] ++ [Examples.sudoGranted]) start)
     = [{| w_route := "sudo";
           w_line := warn_line "sudo" "Sudo key not available" |}].
Proof.
  assert (E : disabledLog (exec [Examples.sudoDenied] start) !! "sudo"
              = Some "Sudo key not available") by (vm_compute; reflexivity).
  destruct (logDisabled_first_message_wins [Examples.sudoDenied] "sudo"
              "Sudo key not available" E) as [Hnoop Hlater].
  split; [exact E|]. split.
  - apply Hnoop.
  - apply (Hlater [Examples.sudoGranted]).
Defined.

(** ** The object built by the [reduce] *)

Lemma values_named {V} (o : JS.Obj V) :
  Forall (fun kv => JS.array_index (fst kv) = None) o ->
  JS.values o = map snd o.
Proof.
  intros H.
  assert (Hi : JS.indexed o = []).
  { induction H as [|[k v] o Hk Ho IH]; [reflexivity|].
    simpl in *. rewrite Hk. assumption. }
  unfold JS.values. rewrite Hi. simpl.
  induction H as [|[k v] o Hk Ho IH]; [reflexivity|].
  simpl in *. rewrite Hk in *. rewrite (IH Hi). reflexivity.
Qed.

Lemma firstSeen_In k ks : In k (Spec.firstSeen ks) <-> In k ks.
Proof.
  induction ks as [|a ks IH]; simpl; [reflexivity|].
  rewrite filter_In, IH. destruct (String.eqb_spec k a) as [->|Hne]; simpl.
  - intuition.
  - intuition congruence.
Qed.

Lemma firstSeen_NoDup ks : List.NoDup (Spec.firstSeen ks).
Proof.
  induction ks as [|a ks IH]; simpl; constructor.
  - rewrite filter_In. intros [_ H]. rewrite String.eqb_refl in H. discriminate.
  - apply List.NoDup_filter, IH.
Qed.

Lemma firstSeen_snoc k ks :
  Spec.firstSeen (ks ++ [k])
  = Spec.firstSeen ks ++ (if existsb (String.eqb k) ks then [] else [k]).
Proof.
  induction ks as [|a ks IH]; simpl; [reflexivity|].
  rewrite IH, List.filter_app. f_equal. f_equal.
  destruct (String.eqb_spec k a) as [->|Hne]; simpl.
  - destruct (existsb (String.eqb a) ks); simpl;
      rewrite ?String.eqb_refl; reflexivity.
  - destruct (existsb (String.eqb k) ks); simpl; [reflexivity|].
    destruct (String.eqb_spec k a); [contradiction | reflexivity].
Qed.

Lemma existsb_eqb_In k ks : existsb (String.eqb k) ks = true <-> In k ks.
Proof.
  rewrite existsb_exists. split.
  - intros (x & Hx & E). apply String.eqb_eq in E. subst. assumption.
  - intros H. exists k. split; [assumption | apply String.eqb_refl].
Qed.

Lemma members_snoc routing r k :
  Spec.members (routing ++ [r]) k
  = Spec.members routing k ++ (if String.eqb (group r) k then [r] else []).
Proof. unfold Spec.members. rewrite List.filter_app. reflexivity. Qed.

Lemma members_none routing k :
  ~ In k (map group routing) -> Spec.members routing k = [].
Proof.
  unfold Spec.members. induction routing as [|r routing IH]; simpl;
    [reflexivity|].
  intros H. destruct (String.eqb_spec (group r) k) as [E|_].
  - exfalso. apply H. left. assumption.
  - apply IH. intros Hin. apply H. right. assumption.
Qed.

Section Reduce.
Variable groupNames : string -> option string.

Lemma asObject_partition routing :
  Spec.asObject groupNames (Spec.partition routing)
  = map (Spec.entry groupNames routing) (Spec.firstSeen (map group routing)).
Proof. unfold Spec.asObject, Spec.partition. rewrite map_map. reflexivity. Qed.

Lemma own_get_entries routing keys k :
  JS.own_get (map (Spec.entry groupNames routing) keys) k
  = if existsb (String.eqb k) keys
    then Some {| g_name := groupNames k; routes := Spec.members routing k |}
    else None.
Proof.
  induction keys as [|a keys IH]; simpl; [reflexivity|].
  destruct (String.eqb_spec k a) as [->|_]; simpl; [reflexivity | apply IH].
Qed.

Lemma modify_entries routing r keys :
  List.NoDup keys ->
  JS.modify (map (Spec.entry groupNames routing) keys) (group r)
    (fun g => {| g_name := g_name g; routes := routes g ++ [r] |})
  = map (Spec.entry groupNames (routing ++ [r])) keys.
Proof.
  induction 1 as [|a keys Ha Hnd IH]; simpl; [reflexivity|].
  unfold Spec.entry at 1 3. rewrite members_snoc.
  destruct (String.eqb_spec (group r) a) as [E|Hne]; simpl.
  - f_equal. apply map_ext_in. intros k Hk. unfold Spec.entry.
    rewrite members_snoc.
    destruct (String.eqb_spec (group r) k) as [E'|_];
      [congruence | rewrite app_nil_r; reflexivity].
  - rewrite app_nil_r. f_equal. apply IH.
Qed.

Lemma addRoute_partition routing r :
  JS.inherited (group r) = false ->
  addRoute groupNames (Spec.asObject groupNames (Spec.partition routing)) r
  = Some (Spec.asObject groupNames (Spec.partition (routing ++ [r]))).
Proof.
  intros Hinh. rewrite !asObject_partition, map_app. simpl.
  rewrite firstSeen_snoc. unfold addRoute, JS.get.
  rewrite own_get_entries.
  destruct (existsb (String.eqb (group r))
              (Spec.firstSeen (map group routing))) eqn:E.
  - assert (E' : existsb (String.eqb (group r)) (map group routing) = true).
    { apply existsb_eqb_In, firstSeen_In, existsb_eqb_In, E. }
    rewrite E', app_nil_r. f_equal.
    apply modify_entries, firstSeen_NoDup.
  - assert (E' : existsb (String.eqb (group r)) (map group routing) = false).
    { destruct (existsb (String.eqb (group r)) (map group routing)) eqn:F;
        [|reflexivity].
      apply existsb_eqb_In, firstSeen_In, existsb_eqb_In in F. congruence. }
    rewrite E', Hinh. f_equal. unfold JS.define. rewrite map_app. simpl.
    f_equal.
    + apply map_ext_in. intros k Hk. unfold Spec.entry. rewrite members_snoc.
      destruct (String.eqb_spec (group r) k) as [<-|_];
        [|rewrite app_nil_r; reflexivity].
      apply existsb_eqb_In in Hk. congruence.
    + unfold Spec.entry. rewrite members_snoc, String.eqb_refl.
      rewrite members_none; [reflexivity|].
      intros Hin. apply existsb_eqb_In in Hin. congruence.
Qed.

Lemma reduceRoutes_partition rest :
  forall routing,
    Forall (fun r => JS.inherited (group r) = false) rest ->
    reduceRoutes groupNames rest
      (Spec.asObject groupNames (Spec.partition routing))
    = Some (Spec.asObject groupNames (Spec.partition (routing ++ rest))).
Proof.
  induction rest as [|r rest IH]; intros routing H; simpl.
  - rewrite app_nil_r. reflexivity.
  - inversion H as [|? ? Hr Hrest]; subst.
    rewrite (addRoute_partition routing r Hr), (IH _ Hrest).
    rewrite <- app_assoc. reflexivity.
Qed.

End Reduce.

Lemma plain_key_spec k :
  JS.plain_key k = true ->
  JS.array_index k = None /\ JS.inherited k = false.
Proof.
  unfold JS.plain_key. destruct (JS.array_index k); [discriminate|].
  destruct (JS.inherited k); [discriminate|]. split; reflexivity.
Qed.

(** ** C7 *)

(** C7, as stated, fails: group keys that are array indices are listed
    by [Object.values] in ascending numeric order, before the other keys,
    not in the order they were first seen.  With a route of group "2"
    followed by a route of group "1", the group of "1" comes out first. *)
Lemma extractGroups_order_counterexample :
  fst (extractGroups [Examples.second; Examples.first] Examples.noNames
         Examples.offline false false start)
  = Some [ {| g_name := None; routes := [Examples.first] |};
           {| g_name := None; routes := [Examples.second] |} ]
  /\ Spec.computeVisibleGroups [Examples.second; Examples.first]
       Examples.noNames Examples.offline false false
     = [ {| g_name := None; routes := [Examples.second] |};
         {| g_name := None; routes := [Examples.first] |} ].
Proof. split; vm_compute; reflexivity. Qed.

(** C7 (amended): for every route list whose group keys are neither
    array-index numerals nor names of properties inherited from
    [Object.prototype], [extractGroups] returns the groups in the order
    their key is first seen in the input, each with its visible routes in
    input order, and without the groups left with no visible route: it
    returns what [Spec.computeVisibleGroups] defines.  The order is a
    function of the input order alone, so a permuted input gives the
    first-seen order of the permuted list. *)
Theorem extractGroups_first_seen_order :
  forall routing gn props ha hs st,
    Forall (fun r => JS.plain_key (group r) = true) routing ->
    fst (extractGroups routing gn props ha hs st)
    = Some (Spec.computeVisibleGroups routing gn props ha hs).
Proof.
  intros routing gn props ha hs st Hplain.
  rewrite extractGroups_fst.
  change (@nil (string * Group)) with (Spec.asObject gn (Spec.partition [])).
  rewrite reduceRoutes_partition.
  - simpl. f_equal. rewrite values_named.
    + unfold Spec.computeVisibleGroups, Spec.asObject. rewrite !map_map.
      reflexivity.
    + unfold Spec.asObject, Spec.partition. rewrite map_map.
      apply List.Forall_forall. intros kv Hkv. apply in_map_iff in Hkv as (k & <- & Hk).
      simpl. apply firstSeen_In, in_map_iff in Hk as (r & <- & Hr).
      rewrite List.Forall_forall in Hplain. apply plain_key_spec, Hplain, Hr.
  - eapply List.Forall_impl; [|exact Hplain]. intros r Hr.
    apply plain_key_spec, Hr.
Qed.

Lemma extractGroups_first_seen_order_witness :
  fst (extractGroups Examples.menu Examples.menuNames Examples.stakingApi
         true false start)
  = Some (Spec.computeVisibleGroups Examples.menu Examples.menuNames
            Examples.stakingApi true false)
  /\ fst (extractGroups (rev Examples.menu) Examples.menuNames
            Examples.stakingApi true false start)
     = Some (Spec.computeVisibleGroups (rev Examples.menu) Examples.menuNames
               Examples.stakingApi true false).
Proof.
  split.
  - apply (extractGroups_first_seen_order Examples.menu).
    repeat constructor.
  - apply (extractGroups_first_seen_order (rev Examples.menu)).
    repeat constructor.
Defined.

(** ** The stake sum below 2^53 *)

Lemma Number_of_small v : (v < 2 ^ 53)%N -> JS.Number_of v = v.
Proof.
  intros H. unfold JS.Number_of.
  destruct (N.ltb_spec (N.log2 v) 53) as [_|Hge]; [reflexivity|].
  exfalso. destruct (N.eq_dec v 0%N) as [->|Hv]; [simpl in Hge; lia|].
  apply N.log2_lt_pow2 in H; lia.
Qed.

Lemma Number_of_large v : (2 ^ 53 <= v)%N -> (2 ^ 53 <= JS.Number_of v)%N.
Proof.
  intros H. assert (Hv : (0 < v)%N) by (assert (0 < 2 ^ 53)%N by reflexivity; lia).
  assert (He : (53 <= N.log2 v)%N) by (apply N.log2_le_pow2; assumption).
  unfold JS.Number_of.
  destruct (N.ltb_spec (N.log2 v) 53) as [Hlt|_]; [lia|].
  set (e := N.log2 v) in *. set (sh := (e - 52)%N).
  set (q := N.shiftr v sh).
  set (q' := if (_ <? _)%N then q else _).
  assert (Hq' : (q <= q')%N).
  { subst q'. repeat (destruct (_ <? _)%N); try lia.
    destruct (N.even q); lia. }
  assert (Hpow : (2 ^ e = 2 ^ 52 * 2 ^ sh)%N).
  { rewrite <- N.pow_add_r. f_equal. subst sh. lia. }
  assert (Hq : (2 ^ 52 <= q)%N).
  { subst q. rewrite N.shiftr_div_pow2.
    assert (Hle : (2 ^ e <= v)%N) by (apply N.log2_spec; assumption).
    apply (N.Div0.div_le_mono _ _ (2 ^ sh)) in Hle.
    rewrite Hpow, N.div_mul in Hle; [assumption|].
    apply N.pow_nonzero. discriminate. }
  rewrite N.shiftl_mul_pow2.
  assert (H53 : (2 ^ 53 <= 2 ^ e)%N) by (apply N.pow_le_mono_r; [discriminate|assumption]).
  rewrite Hpow in H53.
  assert ((2 ^ 52 * 2 ^ sh <= q' * 2 ^ sh)%N)
    by (apply N.mul_le_mono_r; lia).
  lia.
Qed.

Lemma shortest_at_small v p s :
  (v < 2 ^ 53)%N -> p <> 0%N ->
  JS.shortest_at v p = Some s -> (s * p)%N = v.
Proof.
  intros Hv Hp. unfold JS.shortest_at.
  assert (Hlo : (v / p * p <= v)%N)
    by (rewrite N.mul_comm; apply N.Div0.mul_div_le).
  assert (Hhi : (v < (v / p + 1) * p)%N).
  { rewrite N.mul_comm, N.add_1_r. apply N.mul_succ_div_gt. assumption. }
  assert (Hno : N.eqb (JS.Number_of ((v / p + 1) * p)) v = false).
  { apply N.eqb_neq. intros E.
    destruct (N.lt_ge_cases ((v / p + 1) * p) (2 ^ 53)) as [Hs|Hl].
    - rewrite Number_of_small in E by assumption. lia.
    - apply Number_of_large in Hl. lia. }
  rewrite Hno.
  destruct (N.eqb_spec (JS.Number_of (v / p * p)) v) as [E|_]; [|discriminate].
  intros [= <-]. rewrite Number_of_small in E by lia. assumption.
Qed.

Lemma shortest_small v j : (v < 2 ^ 53)%N -> JS.shortest v j = v.
Proof.
  intros Hv. induction j as [|j IH]; [reflexivity|].
  cbn [JS.shortest].
  destruct (JS.shortest_at v (10 ^ N.of_nat (S j))) as [s|] eqn:E;
    [|assumption].
  apply shortest_at_small in E; [assumption..|].
  apply N.pow_nonzero. discriminate.
Qed.

Lemma BN_of_decimal v : JS.BN_of_string (JS.decimal v) = Some v.
Proof.
  unfold JS.BN_of_string, JS.decimal.
  assert (Hnil : N.to_uint v <> Decimal.Nil).
  { destruct v; simpl; [discriminate | apply DecimalPos.Unsigned.to_uint_nonnil]. }
  assert (Hs : NilZero.string_of_uint (N.to_uint v)
               = NilEmpty.string_of_uint (N.to_uint v)).
  { destruct (N.to_uint v); [contradiction | reflexivity..]. }
  rewrite Hs, NilEmpty.usu. simpl. rewrite DecimalN.Unsigned.of_to.
  destruct (NilEmpty.string_of_uint (N.to_uint v)) eqn:E; [|reflexivity].
  exfalso. destruct (N.to_uint v); [contradiction | discriminate..].
Qed.

Lemma toBN_small exponential v :
  (v < 2 ^ 53)%N -> Account.toBN exponential v = Some v.
Proof.
  intros Hv. unfold Account.toBN, JS.Number_toString.
  rewrite (Number_of_small v Hv).
  assert (Hlt : (v <? 10 ^ 21)%N = true).
  { apply N.ltb_lt. assert (2 ^ 53 < 10 ^ 21)%N by reflexivity. lia. }
  rewrite Hlt. simpl. rewrite (shortest_small v _ Hv). apply BN_of_decimal.
Qed.

(** Where the code does compute the exact sum: every per-target value
    below 2^53. *)
Lemma stakeValue_exact_below_2_53 exponential guaranteeTargets :
  Forall (fun t => (Account.value t < 2 ^ 53)%N) guaranteeTargets ->
  Account.stakeValue exponential guaranteeTargets
  = Some (Account.exactStake guaranteeTargets).
Proof.
  unfold Account.stakeValue.
  assert (G : forall acc,
    Forall (fun t => (Account.value t < 2 ^ 53)%N) guaranteeTargets ->
    fold_left (fun (total : option N) (t : Account.IndividualExposure) =>
                 tot ← total; v ← Account.toBN exponential (Account.value t);
                 Some (tot + v)%N)
              guaranteeTargets (Some acc)
    = Some (acc + Account.exactStake guaranteeTargets)%N).
  { induction guaranteeTargets as [|t ts IH]; intros acc H; simpl.
    - rewrite N.add_0_r. reflexivity.
    - inversion H as [|? ? Ht Hts]; subst.
      rewrite (toBN_small exponential _ Ht). simpl. rewrite (IH _ Hts).
      f_equal. lia. }
  intros H. rewrite (G 0%N H). reflexivity.
Qed.

(** * Further properties of the code *)

Import Diagnostics.

(** ** [logDisabled] on any log *)

Lemma truthy_nonempty m : m <> "" -> JS.truthy_string (Some m) = true.
Proof.
  intros H. simpl. destruct (String.eqb_spec m ""); [contradiction|reflexivity].
Qed.

Lemma logDisabled_settled route message st :
  message <> "" ->
  logDisabled route message (snd (logDisabled route message st))
  = (tt, snd (logDisabled route message st)).
Proof.
  intros Hne. unfold logDisabled at 2 3.
  destruct (JS.truthy_string (disabledLog st !! route)) eqn:E; simpl.
  - unfold logDisabled. rewrite E. reflexivity.
  - unfold logDisabled. simpl. rewrite lookup_insert_eq.
    rewrite (truthy_nonempty message Hne). reflexivity.
Qed.

(** X1: a second [logDisabled] with the same non-empty message, right
    after the first, changes nothing and writes nothing, whatever the log
    was before. *)
Theorem logDisabled_twice :
  forall route message st,
    message <> "" ->
    logDisabled route message (snd (logDisabled route message st))
    = (tt, snd (logDisabled route message st)).
Proof. intros route message st. apply logDisabled_settled. Qed.

Lemma logDisabled_twice_witness :
  logDisabled "sudo" "Sudo key not available"
    (snd (logDisabled "sudo" "Sudo key not available" start))
  = (tt, snd (logDisabled "sudo" "Sudo key not available" start)).
Proof.
  apply (logDisabled_twice "sudo" "Sudo key not available" start).
  discriminate.
Defined.

(** X2: an empty message is recorded but does not block: when nothing
    truthy is recorded for a route, [logDisabled] with the empty message
    followed by [logDisabled] with any message writes two lines and
    leaves the second message in the map. *)
Theorem logDisabled_empty_message_does_not_block :
  forall route message st,
    JS.truthy_string (disabledLog st !! route) = false ->
    let st1 := snd (logDisabled route "" st) in
    let st2 := snd (logDisabled route message st1) in
    console st2
    = console st ++ [ {| w_route := route; w_line := warn_line route "" |};
                      {| w_route := route; w_line := warn_line route message |} ]
    /\ disabledLog st2 !! route = Some message.
Proof.
  intros route message st E. unfold logDisabled. rewrite E. simpl.
  rewrite lookup_insert_eq. simpl. rewrite lookup_insert_eq.
  rewrite <- app_assoc. split; reflexivity.
Qed.

Lemma logDisabled_empty_message_does_not_block_witness :
  console (snd (logDisabled "sudo" "Sudo key not available"
                  (snd (logDisabled "sudo" "" start))))
  = [ {| w_route := "sudo"; w_line := warn_line "sudo" "" |};
      {| w_route := "sudo";
         w_line := warn_line "sudo" "Sudo key not available" |} ].
Proof.
  exact (proj1 (logDisabled_empty_message_does_not_block "sudo"
                  "Sudo key not available" start eq_refl)).
Defined.

(** ** What [checkVisible] does to the log *)

Lemma checkVisible_log name props ha hs d st :
  snd (checkVisible name props ha hs d st)
  = match diagnosis props ha hs d with
    | Some m => snd (logDisabled name m st)
    | None => st
    end.
Proof.
  unfold checkVisible, diagnosis.
  destruct (isHidden d); [reflexivity|].
  destruct (needsAccounts d && negb ha); [reflexivity|].
  destruct (needsApi d) as [needs|]; [|reflexivity].
  destruct (negb (isApiReady props) || negb (isApiConnected props));
    [reflexivity|].
  destruct (needsSudo d && negb hs); [rewrite bind_snd; reflexivity|].
  rewrite bind_snd. simpl.
  destruct (findMissingApis (api props) needs); reflexivity.
Qed.

Lemma diagnosis_not_empty props ha hs d m :
  diagnosis props ha hs d = Some m -> m <> "".
Proof.
  unfold diagnosis.
  destruct (isHidden d); [discriminate|].
  destruct (needsAccounts d && negb ha); [discriminate|].
  destruct (needsApi d) as [needs|]; [|discriminate].
  destruct (negb (isApiReady props) || negb (isApiConnected props));
    [discriminate|].
  destruct (needsSudo d && negb hs); [intros [= <-]; discriminate|].
  destruct (findMissingApis (api props) needs); [discriminate|].
  intros [= <-]. apply api_message_not_empty.
Qed.

Lemma diagnosis_invisible props ha hs d m :
  diagnosis props ha hs d = Some m ->
  Spec.routeVisible props ha hs d = false.
Proof.
  unfold diagnosis, Spec.routeVisible, Spec.missing, Spec.requiresApi,
    Spec.requiredCapabilities, findMissingApis.
  destruct (isHidden d); [reflexivity|].
  destruct (needsAccounts d && negb ha); [reflexivity|].
  destruct (needsApi d) as [needs|]; [|discriminate]. simpl.
  destruct (negb (isApiReady props) || negb (isApiConnected props));
    [reflexivity|].
  destruct (needsSudo d && negb hs); [reflexivity|].
  destruct (List.filter _ needs); [discriminate | reflexivity].
Qed.

(** X3: a check that finds the route visible leaves the log exactly as
    it was: only routes that are turned down are ever reported. *)
Theorem checkVisible_visible_is_silent :
  forall name props ha hs d st,
    fst (checkVisible name props ha hs d st) = true ->
    snd (checkVisible name props ha hs d st) = st.
Proof.
  intros name props ha hs d st Hv. rewrite checkVisible_verdict in Hv.
  rewrite checkVisible_log.
  destruct (diagnosis props ha hs d) as [m|] eqn:E; [|reflexivity].
  rewrite (diagnosis_invisible _ _ _ _ _ E) in Hv. discriminate.
Qed.

Lemma checkVisible_visible_is_silent_witness :
  snd (checkVisible "explorer" Examples.offline false false Examples.always
         Samples.emptyRecorded) = Samples.emptyRecorded.
Proof.
  apply (checkVisible_visible_is_silent "explorer" Examples.offline false
           false Examples.always Samples.emptyRecorded).
  reflexivity.
Defined.

(** X4: a check of one route never touches what is recorded or written
    for another route, and it adds at most one line to the console,
    after the ones already there. *)
Theorem checkVisible_frame :
  forall name other props ha hs d st,
    other <> name ->
    let st' := snd (checkVisible name props ha hs d st) in
    disabledLog st' !! other = disabledLog st !! other
    /\ linesFor other st' = linesFor other st
    /\ exists extra, console st' = console st ++ extra
                     /\ (length extra <= 1)%nat.
Proof.
  intros name other props ha hs d st Hne. simpl. rewrite checkVisible_log.
  destruct (diagnosis props ha hs d) as [m|].
  - unfold logDisabled.
    destruct (negb (JS.truthy_string (disabledLog st !! name))); simpl.
    + rewrite lookup_insert_ne by congruence. split; [reflexivity|]. split.
      * unfold linesFor. simpl. rewrite List.filter_app. simpl.
        destruct (String.eqb_spec name other); [congruence|].
        apply app_nil_r.
      * eexists. split; [reflexivity | simpl; lia].
    + split; [reflexivity|]. split; [reflexivity|].
      exists []. rewrite app_nil_r. split; [reflexivity | simpl; lia].
  - split; [reflexivity|]. split; [reflexivity|].
    exists []. rewrite app_nil_r. split; [reflexivity | simpl; lia].
Qed.

Lemma checkVisible_frame_witness :
  linesFor "sudo"
    (snd (checkVisible "market" Examples.stakingApi true false
            Examples.marketOnly (exec [Examples.sudoDenied] start)))
  = linesFor "sudo" (exec [Examples.sudoDenied] start).
Proof.
  apply (checkVisible_frame "market" "sudo" Examples.stakingApi true false
           Examples.marketOnly (exec [Examples.sudoDenied] start)).
  discriminate.
Defined.

(** ** Renders and the log *)

Lemma filterM_app_snd {A} (p : A -> M bool) l1 l2 st :
  snd (filterM p (l1 ++ l2) st) = snd (filterM p l2 (snd (filterM p l1 st))).
Proof.
  revert st. induction l1 as [|x l1 IH]; intros st; simpl; [reflexivity|].
  repeat (rewrite bind_snd; simpl). apply IH.
Qed.

(** The log after a render is the log after checking, one by one, the
    routes of the groups in the order [Object.values] lists them. *)
Lemma extractGroups_snd routing gn props ha hs st :
  snd (extractGroups routing gn props ha hs st)
  = match reduceRoutes gn routing [] with
    | Some all =>
        snd (filterM (checkRoute props ha hs)
                     (flat_map routes (JS.values all)) st)
    | None => st
    end.
Proof.
  unfold extractGroups.
  destruct (reduceRoutes gn routing []) as [all|]; [|reflexivity].
  rewrite bind_snd. simpl. generalize (JS.values all) as gs. intros gs.
  revert st. induction gs as [|g gs IH]; intros st; simpl; [reflexivity|].
  repeat (rewrite bind_snd; simpl).
  rewrite filterM_app_snd, IH. reflexivity.
Qed.

Lemma checkRoute_log props ha hs r st :
  snd (checkRoute props ha hs r st)
  = match diagnosis props ha hs (display r) with
    | Some m => snd (logDisabled (name r) m st)
    | None => st
    end.
Proof. apply checkVisible_log. Qed.

(** A route that has been checked stays quiet. *)
Lemma checkRoute_settled props ha hs r st :
  snd (checkRoute props ha hs r (snd (checkRoute props ha hs r st)))
  = snd (checkRoute props ha hs r st).
Proof.
  rewrite !checkRoute_log.
  destruct (diagnosis props ha hs (display r)) as [m|] eqn:E; [|reflexivity].
  rewrite logDisabled_settled; [reflexivity|].
  eapply diagnosis_not_empty, E.
Qed.

(** A quiet route stays quiet when another route is checked. *)
Lemma checkRoute_quiet_kept props ha hs r r' st :
  snd (checkRoute props ha hs r st) = st ->
  snd (checkRoute props ha hs r (snd (checkRoute props ha hs r' st)))
  = snd (checkRoute props ha hs r' st).
Proof.
  rewrite !checkRoute_log.
  destruct (diagnosis props ha hs (display r)) as [m|] eqn:E; [|reflexivity].
  destruct (diagnosis props ha hs (display r')) as [m'|] eqn:E';
    [|intros H; exact H].
  pose proof (diagnosis_not_empty _ _ _ _ _ E) as Hm.
  pose proof (diagnosis_not_empty _ _ _ _ _ E') as Hm'.
  unfold logDisabled.
  destruct (JS.truthy_string (disabledLog st !! name r)) eqn:T; simpl.
  - intros _.
    destruct (JS.truthy_string (disabledLog st !! name r')) eqn:T'; simpl.
    + rewrite T. reflexivity.
    + destruct (decide (name r' = name r)) as [Heq|Hne].
      * rewrite Heq in T'. congruence.
      * rewrite lookup_insert_ne by assumption. rewrite T. reflexivity.
  - intros H. exfalso.
    assert (Hl : length (console st ++
                   [{| w_route := name r; w_line := warn_line (name r) m |}])
                 = length (console st)) by (rewrite <- H at 2; reflexivity).
    rewrite length_app in Hl. simpl in Hl. lia.
Qed.

Lemma filterM_quiet_kept props ha hs r l : forall st,
  snd (checkRoute props ha hs r st) = st ->
  snd (checkRoute props ha hs r (snd (filterM (checkRoute props ha hs) l st)))
  = snd (filterM (checkRoute props ha hs) l st).
Proof.
  induction l as [|x l IH]; intros st H; simpl; [assumption|].
  rewrite !bind_snd. simpl. apply IH.
  apply checkRoute_quiet_kept, H.
Qed.

Lemma filterM_settled props ha hs l : forall st r,
  In r l ->
  snd (checkRoute props ha hs r (snd (filterM (checkRoute props ha hs) l st)))
  = snd (filterM (checkRoute props ha hs) l st).
Proof.
  induction l as [|x l IH]; intros st r Hin; [contradiction|].
  simpl. rewrite !bind_snd. simpl. destruct Hin as [->|Hin].
  - apply filterM_quiet_kept, checkRoute_settled.
  - apply IH, Hin.
Qed.

Lemma filterM_all_quiet props ha hs l st :
  (forall r, In r l -> snd (checkRoute props ha hs r st) = st) ->
  snd (filterM (checkRoute props ha hs) l st) = st.
Proof.
  induction l as [|x l IH]; intros H; simpl; [reflexivity|].
  rewrite !bind_snd. simpl. rewrite (H x (or_introl eq_refl)).
  apply IH. intros r Hr. apply H. right. assumption.
Qed.

(** X5: rendering again with the same inputs returns the same groups
    and writes nothing more: the log after the second render is the log
    after the first, whatever the log was before the first. *)
Theorem extractGroups_again :
  forall routing gn props ha hs st,
    extractGroups routing gn props ha hs
      (snd (extractGroups routing gn props ha hs st))
    = extractGroups routing gn props ha hs st.
Proof.
  intros routing gn props ha hs st.
  apply injective_projections.
  - rewrite !extractGroups_fst. reflexivity.
  - rewrite (extractGroups_snd routing gn props ha hs
               (snd (extractGroups routing gn props ha hs st))).
    destruct (reduceRoutes gn routing []) as [all|] eqn:E; [|reflexivity].
    apply filterM_all_quiet. intros r Hr.
    rewrite extractGroups_snd, E. apply filterM_settled, Hr.
Qed.

(** ** When [extractGroups] fails *)

Lemma own_get_modify {V} (o : JS.Obj V) k f k' :
  JS.own_get (JS.modify o k f) k'
  = if String.eqb k' k then option_map f (JS.own_get o k')
    else JS.own_get o k'.
Proof.
  induction o as [|[a v] o IH]; simpl.
  - destruct (String.eqb k' k); reflexivity.
  - destruct (String.eqb_spec k a) as [Hka|Hka]; simpl.
    + destruct (String.eqb_spec k' a) as [Hk'|Hk'];
        destruct (String.eqb_spec k' k) as [Hkk|Hkk];
        try congruence; reflexivity.
    + rewrite IH.
      destruct (String.eqb_spec k' a) as [Hk'|Hk'];
        destruct (String.eqb_spec k' k) as [Hkk|Hkk];
        try congruence; reflexivity.
Qed.

Lemma own_get_define {V} (o : JS.Obj V) k v k' :
  JS.own_get o k = None ->
  JS.own_get (JS.define o k v) k'
  = if String.eqb k' k then Some v else JS.own_get o k'.
Proof.
  unfold JS.define. induction o as [|[a w] o IH]; simpl; intros H.
  - reflexivity.
  - destruct (String.eqb_spec k a) as [Hka|Hka]; [discriminate|].
    destruct (String.eqb_spec k' a) as [Hk'|Hk'].
    + destruct (String.eqb_spec k' k); [congruence | reflexivity].
    + apply IH, H.
Qed.

(** No own property of the object has an inherited name. *)
Lemma reduceRoutes_fails gn routing : forall all,
  (forall k, JS.inherited k = true -> JS.own_get all k = None) ->
  reduceRoutes gn routing all = None
  <-> Exists (fun r => JS.inherited (group r) = true) routing.
Proof.
  induction routing as [|r routing IH]; intros all Hall; simpl.
  - split; [discriminate | intros H; inversion H].
  - unfold addRoute, JS.get.
    destruct (JS.own_get all (group r)) as [g|] eqn:E.
    + assert (Hr : JS.inherited (group r) = false).
      { destruct (JS.inherited (group r)) eqn:I; [|reflexivity].
        rewrite (Hall _ I) in E. discriminate. }
      rewrite IH.
      * split; [intros H; right; exact H|].
        intros H. inversion H; subst; [congruence | assumption].
      * intros k Hk. rewrite own_get_modify.
        destruct (String.eqb_spec k (group r)) as [->|_]; [congruence|].
        apply Hall, Hk.
    + destruct (JS.inherited (group r)) eqn:I.
      * split; [intros _; left; exact I | reflexivity].
      * rewrite IH.
        -- split; [intros H; right; exact H|].
           intros H. inversion H; subst; [congruence | assumption].
        -- intros k Hk. rewrite own_get_define by assumption.
           destruct (String.eqb_spec k (group r)) as [->|_]; [congruence|].
           apply Hall, Hk.
Qed.

(** X6: [extractGroups] fails (the [reduce] raises a [TypeError]) exactly
    when some route has a group key that names a property inherited from
    [Object.prototype]; it then fails before any route is checked, the
    log staying as it was. *)
Theorem extractGroups_fails_on_inherited_key :
  forall routing gn props ha hs st,
    (fst (extractGroups routing gn props ha hs st) = None
     <-> Exists (fun r => JS.inherited (group r) = true) routing)
    /\ (fst (extractGroups routing gn props ha hs st) = None ->
        snd (extractGroups routing gn props ha hs st) = st).
Proof.
  intros routing gn props ha hs st. split.
  - rewrite extractGroups_fst, <- (reduceRoutes_fails gn routing []).
    + destruct (reduceRoutes gn routing []); simpl; split; congruence.
    + reflexivity.
  - rewrite extractGroups_fst, extractGroups_snd.
    destruct (reduceRoutes gn routing []); simpl; [discriminate|reflexivity].
Qed.

Lemma extractGroups_fails_on_inherited_key_witness :
  extractGroups [Examples.sudoRoute; Samples.toStringRoute] Examples.noNames
    Examples.stakingApi true false start = (None, start).
Proof.
  destruct (extractGroups_fails_on_inherited_key
              [Examples.sudoRoute; Samples.toStringRoute] Examples.noNames
              Examples.stakingApi true false start) as [Hiff Hlog].
  assert (H : fst (extractGroups [Examples.sudoRoute; Samples.toStringRoute]
                     Examples.noNames Examples.stakingApi true false start)
              = None).
  { apply Hiff. right. left. reflexivity. }
  apply injective_projections; [exact H | exact (Hlog H)].
Defined.

(** ** What [extractGroups] returns, whatever the group keys *)

Lemma filter_Permutation_bool {A} (f : A -> bool) (l l' : list A) :
  Permutation l l' -> Permutation (List.filter f l) (List.filter f l').
Proof.
  induction 1 as [|x l l' _ IH|x y l|l l' l'' _ IH1 _ IH2]; simpl.
  - constructor.
  - destruct (f x); [constructor|]; assumption.
  - destruct (f x), (f y); try reflexivity. constructor.
  - etransitivity; eassumption.
Qed.

Lemma insert_by_index_Permutation {V} i (v : V) l :
  Permutation (JS.insert_by_index i v l) ((i, v) :: l).
Proof.
  induction l as [|[j w] l IH]; simpl; [reflexivity|].
  destruct (i <? j)%N; [reflexivity|].
  rewrite IH. constructor.
Qed.

(** [Object.values] lists every own property once. *)
Lemma values_Permutation {V} (o : JS.Obj V) :
  Permutation (JS.values o) (map snd o).
Proof.
  unfold JS.values. induction o as [|[k v] o IH]; simpl; [reflexivity|].
  destruct (JS.array_index k) as [i|].
  - rewrite (Permutation_map snd (insert_by_index_Permutation i v _)).
    simpl. constructor. assumption.
  - rewrite <- Permutation_middle. constructor. assumption.
Qed.

(** The groups that come out are those of the specification, in the
    order [Object.values] gives them. *)
Lemma extractGroups_Permutation routing gn props ha hs st out :
  fst (extractGroups routing gn props ha hs st) = Some out ->
  Permutation out (Spec.computeVisibleGroups routing gn props ha hs).
Proof.
  intros H.
  assert (Hno : Forall (fun r => JS.inherited (group r) = false) routing).
  { apply List.Forall_forall. intros r Hr.
    destruct (JS.inherited (group r)) eqn:I; [|reflexivity].
    assert (Hf : reduceRoutes gn routing [] = None).
    { apply reduceRoutes_fails; [reflexivity|].
      apply List.Exists_exists. exists r. split; assumption. }
    rewrite extractGroups_fst, Hf in H. discriminate. }
  rewrite extractGroups_fst in H.
  change (@nil (string * Group)) with (Spec.asObject gn (Spec.partition []))
    in H.
  rewrite (reduceRoutes_partition gn routing [] Hno) in H. simpl in H.
  injection H as <-.
  unfold Spec.computeVisibleGroups.
  apply filter_Permutation_bool.
  rewrite (Permutation_map _ (values_Permutation _)).
  unfold Spec.asObject. rewrite !map_map. reflexivity.
Qed.

(** X7: whenever [extractGroups] returns, a group is in the result
    exactly when it is, for some group key of the input, the display name
    of that key with the visible routes of that key in input order, and
    it has at least one route.  This holds for every kind of key; only
    the order of the groups depends on the keys. *)
Theorem extractGroups_groups :
  forall routing gn props ha hs st out g,
    fst (extractGroups routing gn props ha hs st) = Some out ->
    (In g out
     <-> exists k,
           In k (map group routing)
           /\ g = {| g_name := gn k;
                     routes := List.filter
                       (fun r => fst (checkVisible (name r) props ha hs
                                        (display r) st))
                       (List.filter (fun r => String.eqb (group r) k)
                                    routing) |}
           /\ routes g <> []).
Proof.
  intros routing gn props ha hs st out g H.
  apply extractGroups_Permutation in H.
  assert (E : forall k,
    List.filter (fun r => fst (checkVisible (name r) props ha hs
                                 (display r) st))
      (List.filter (fun r => String.eqb (group r) k) routing)
    = List.filter (fun r => Spec.routeVisible props ha hs (display r))
        (Spec.members routing k)).
  { intros k. apply List.filter_ext. intros r. apply checkVisible_verdict. }
  split.
  - intros Hg. apply (Permutation_in _ H) in Hg.
    unfold Spec.computeVisibleGroups, Spec.partition in Hg.
    apply filter_In in Hg as [Hg Hne]. rewrite map_map in Hg.
    apply in_map_iff in Hg as (k & <- & Hk). simpl in *.
    exists k. split; [apply firstSeen_In, Hk|]. rewrite E.
    split; [reflexivity|]. simpl. unfold nonEmpty in Hne. simpl in Hne.
    destruct (List.filter _ (Spec.members routing k)); [discriminate|].
    discriminate.
  - intros (k & Hk & -> & Hne). apply (Permutation_in _ (Permutation_sym H)).
    unfold Spec.computeVisibleGroups, Spec.partition.
    apply filter_In. split.
    + rewrite map_map. apply in_map_iff. exists k. simpl. rewrite E.
      split; [reflexivity | apply firstSeen_In, Hk].
    + unfold nonEmpty. simpl in *. destruct (List.filter _ _);
        [contradiction | reflexivity].
Qed.

Lemma extractGroups_groups_witness :
  In Examples.networkGroup Examples.menuGroups.
Proof.
  apply (extractGroups_groups Examples.menu Examples.menuNames
           Examples.stakingApi true false start Examples.menuGroups
           Examples.networkGroup).
  - vm_compute. reflexivity.
  - exists "network". split; [right; left; reflexivity|].
    split; [vm_compute; reflexivity | discriminate].
Defined.

Lemma modify_routes (o : Groups) k r g :
  JS.own_get o k = Some g ->
  Permutation
    (flat_map (fun kv => routes (snd kv))
       (JS.modify o k
          (fun g => {| g_name := g_name g; routes := routes g ++ [r] |})))
    (flat_map (fun kv => routes (snd kv)) o ++ [r]).
Proof.
  induction o as [|[a v] o IH]; simpl; [discriminate|].
  destruct (String.eqb k a); simpl.
  - intros _. rewrite <- !app_assoc. apply Permutation_app_head.
    apply Permutation_app_comm.
  - intros H. rewrite <- app_assoc. apply Permutation_app_head, IH, H.
Qed.

Lemma reduceRoutes_routes gn routing : forall all all',
  reduceRoutes gn routing all = Some all' ->
  Permutation (flat_map (fun kv => routes (snd kv)) all')
              (flat_map (fun kv => routes (snd kv)) all ++ routing).
Proof.
  induction routing as [|r routing IH]; intros all all' H; simpl in H.
  - injection H as <-. rewrite app_nil_r. reflexivity.
  - destruct (addRoute gn all r) as [all1|] eqn:E; [|discriminate].
    rewrite (IH _ _ H). clear IH H.
    change (r :: routing) with ([r] ++ routing). rewrite app_assoc.
    apply Permutation_app_tail.
    unfold addRoute, JS.get in E.
    destruct (JS.own_get all (group r)) as [g|] eqn:G.
    + injection E as <-. apply (modify_routes all (group r) r g G).
    + destruct (JS.inherited (group r)); [discriminate|].
      injection E as <-. unfold JS.define. rewrite flat_map_app. simpl.
      rewrite ?app_nil_r. reflexivity.
Qed.

Lemma flat_map_nonEmpty (l : list Group) :
  flat_map routes (List.filter nonEmpty l) = flat_map routes l.
Proof.
  induction l as [|g l IH]; simpl; [reflexivity|].
  unfold nonEmpty at 1. destruct (routes g) eqn:E; simpl.
  - assumption.
  - rewrite E, IH. reflexivity.
Qed.

Lemma flat_map_filter_routes (v : Route -> bool) (l : list Group) :
  flat_map routes
    (map (fun g => {| g_name := g_name g;
                      routes := List.filter v (routes g) |}) l)
  = List.filter v (flat_map routes l).
Proof.
  induction l as [|g l IH]; simpl; [reflexivity|].
  rewrite List.filter_app, IH. reflexivity.
Qed.

Lemma visible_routes_Permutation routing gn props ha hs st out :
  fst (extractGroups routing gn props ha hs st) = Some out ->
  Permutation
    (flat_map routes out)
    (List.filter (fun r => fst (checkVisible (name r) props ha hs
                                  (display r) st)) routing).
Proof.
  intros H.
  rewrite extractGroups_fst in H.
  destruct (reduceRoutes gn routing []) as [all|] eqn:E; [|discriminate].
  simpl in H. injection H as <-.
  rewrite flat_map_nonEmpty, flat_map_filter_routes.
  rewrite (List.filter_ext
             (fun r => fst (checkVisible (name r) props ha hs (display r) st))
             (fun r => Spec.routeVisible props ha hs (display r)))
    by (intros r; apply checkVisible_verdict).
  apply filter_Permutation_bool.
  rewrite (Permutation_flat_map routes (values_Permutation all)).
  rewrite flat_map_concat_map, map_map, <- flat_map_concat_map.
  apply (reduceRoutes_routes gn routing [] all E).
Qed.

(** X8: whenever [extractGroups] returns, the routes of the returned
    groups, taken together, are the routes of the input that
    [checkVisible] accepts, each as many times as the input has it: no
    visible route is lost and none is listed twice. *)
Theorem extractGroups_keeps_visible_routes :
  forall routing gn props ha hs st out,
    fst (extractGroups routing gn props ha hs st) = Some out ->
    Permutation
      (flat_map routes out)
      (List.filter (fun r => fst (checkVisible (name r) props ha hs
                                    (display r) st)) routing).
Proof. intros. eapply visible_routes_Permutation; eassumption. Qed.

Lemma extractGroups_keeps_visible_routes_witness :
  Permutation
    (flat_map routes [ {| g_name := None; routes := [Examples.first] |};
                       {| g_name := None; routes := [Examples.second] |} ])
    (List.filter (fun r => fst (checkVisible (name r) Examples.offline false
                                  false (display r) start))
                 [Examples.second; Examples.first]).
Proof.
  apply (extractGroups_keeps_visible_routes
           [Examples.second; Examples.first] Examples.noNames
           Examples.offline false false start).
  vm_compute. reflexivity.
Defined.

(** X9: every route that [extractGroups] lists is a route of the input
    that is not hidden, needs accounts only if there are some and, when
    it needs the API, finds it ready and connected, with the sudo key if
    it needs that and with every endpoint it asks for. *)
Theorem extractGroups_lists_only_permitted :
  forall routing gn props ha hs st out g r,
    fst (extractGroups routing gn props ha hs st) = Some out ->
    In g out ->
    In r (routes g) ->
    In r routing
    /\ isHidden (display r) = false
    /\ (needsAccounts (display r) = true -> ha = true)
    /\ (forall needs,
          needsApi (display r) = Some needs ->
          MenuView.isLoading props = false
          /\ (needsSudo (display r) = true -> hs = true)
          /\ Forall (fun c => c ∈ api props) needs).
Proof.
  intros routing gn props ha hs st out g r H Hg Hr.
  assert (Hin : In r (flat_map routes out)).
  { apply in_flat_map. exists g. split; assumption. }
  apply (Permutation_in _ (visible_routes_Permutation _ _ _ _ _ _ _ H))
    in Hin.
  apply filter_In in Hin as [Hin Hv]. split; [assumption|].
  rewrite checkVisible_verdict in Hv.
  unfold Spec.routeVisible, Spec.missing, Spec.requiresApi,
    Spec.requiredCapabilities, MenuView.isLoading in *.
  destruct (isHidden (display r)); [discriminate|]. split; [reflexivity|].
  destruct (needsAccounts (display r)), ha; simpl in Hv; try discriminate.
  all: split; [intros; congruence|].
  all: intros needs Hn; rewrite Hn in Hv; simpl in Hv.
  all: destruct (negb (isApiReady props) || negb (isApiConnected props));
    [discriminate|]; split; [reflexivity|].
  all: destruct (needsSudo (display r)), hs; simpl in Hv; try discriminate.
  all: split; [intros; congruence|].
  all: apply findMissingApis_nil; unfold findMissingApis.
  all: destruct (List.filter _ needs); [reflexivity | discriminate].
Qed.

Lemma extractGroups_lists_only_permitted_witness :
  In Examples.explorerRoute Examples.menu
  /\ isHidden (display Examples.explorerRoute) = false.
Proof.
  destruct (extractGroups_lists_only_permitted Examples.menu
              Examples.menuNames Examples.stakingApi true false start
              Examples.menuGroups Examples.networkGroup
              Examples.explorerRoute) as (Hin & Hh & _).
  - vm_compute. reflexivity.
  - right. left. reflexivity.
  - left. reflexivity.
  - split; assumption.
Defined.

(** ** The sudo key and the menu *)

(** X10: a route that needs both the API and the sudo key is listed by
    the menu only when a sudo key is known and one of the user's
    accounts compares equal to it. *)
Theorem visibleGroups_sudo_needs_own_key :
  forall routing gn props ha eq sudoKey allAccounts st out g r needs,
    fst (MenuView.visibleGroups routing gn props ha eq sudoKey allAccounts st)
    = Some out ->
    In g out ->
    In r (routes g) ->
    needsApi (display r) = Some needs ->
    needsSudo (display r) = true ->
    exists key address,
      sudoKey = Some key /\ In address allAccounts /\ eq key address = true.
Proof.
  intros routing gn props ha eq sudoKey allAccounts st out g r needs
    H Hg Hr Hn Hs.
  unfold MenuView.visibleGroups in H.
  assert (Hin : In r (flat_map routes out)).
  { apply in_flat_map. exists g. split; assumption. }
  apply (Permutation_in _ (visible_routes_Permutation _ _ _ _ _ _ _ H)) in Hin.
  apply filter_In in Hin as [_ Hv]. rewrite checkVisible_verdict in Hv.
  unfold Spec.routeVisible, Spec.requiresApi in Hv. rewrite Hn, Hs in Hv.
  destruct (isHidden (display r)); [discriminate|].
  destruct (needsAccounts (display r) && negb ha); [discriminate|].
  simpl in Hv.
  destruct (negb (isApiReady props) || negb (isApiConnected props));
    [discriminate|].
  unfold MenuView.hasSudo in Hv. destruct sudoKey as [key|]; [|discriminate].
  destruct (existsb (fun address => eq key address) allAccounts) eqn:E;
    [|discriminate].
  apply existsb_exists in E as (address & Ha & He).
  exists key, address. repeat split; assumption.
Qed.

Lemma visibleGroups_sudo_needs_own_key_witness :
  exists key address,
    Some Examples.stash = Some key
    /\ In address ["5Other"; Examples.stash]
    /\ String.eqb key address = true.
Proof.
  apply (visibleGroups_sudo_needs_own_key [Examples.sudoRoute]
           Examples.noNames
           {| api := {[ "tx.sudo.setKey" ]};
              isApiConnected := true; isApiReady := true |}
           true String.eqb (Some Examples.stash)
           ["5Other"; Examples.stash] start
           [ {| g_name := None; routes := [Examples.sudoRoute] |} ]
           {| g_name := None; routes := [Examples.sudoRoute] |}
           Examples.sudoRoute ["tx.sudo.setKey"]).
  - vm_compute. reflexivity.
  - left. reflexivity.
  - left. reflexivity.
  - reflexivity.
  - reflexivity.
Defined.

(** The verdict on a route that needs the API, spelled out. *)
Lemma checkVisible_required_menu name props ha hs h na ns needs st :
  fst (checkVisible name props ha hs
         {| isHidden := h; needsAccounts := na;
            needsApi := Some needs; needsSudo := ns |} st) = true
  <-> (h = false
       /\ (na = false \/ ha = true)
       /\ isApiConnected props = true /\ isApiReady props = true
       /\ (ns = false \/ hs = true)
       /\ Forall (fun x => x ∈ api props) needs).
Proof.
  rewrite <- findMissingApis_nil, checkVisible_verdict.
  unfold Spec.routeVisible, Spec.missing, Spec.requiresApi,
    Spec.requiredCapabilities, findMissingApis. simpl.
  destruct h; simpl; [intuition discriminate|].
  destruct na, ha; simpl; try (intuition discriminate).
  all: destruct (isApiReady props), (isApiConnected props); simpl;
    try (intuition discriminate).
  all: destruct ns, hs; simpl; try (intuition discriminate).
  all: destruct (List.filter _ needs); intuition discriminate.
Qed.

(** ** The storage route *)

(** X11: the storage route made by [create] is visible exactly when the
    API is ready and connected and exposes both
    [tx.market.placeStorageOrder] and [query.market.files]; accounts and
    the sudo key play no part. *)
Theorem storage_route_visible :
  forall props ha hs st,
    fst (checkVisible (name Routing.create) props ha hs
           (display Routing.create) st) = true
    <-> isApiReady props = true
        /\ isApiConnected props = true
        /\ "tx.market.placeStorageOrder" ∈ api props
        /\ "query.market.files" ∈ api props.
Proof.
  intros props ha hs st. unfold Routing.create. simpl.
  rewrite checkVisible_required_menu.
  split.
  - intros (_ & _ & Hc & Hr & _ & Hall).
    inversion Hall as [|? ? H1 Hrest]; subst.
    inversion Hrest as [|? ? H2 _]; subst. repeat split; assumption.
  - intros (Hr & Hc & H1 & H2). split; [reflexivity|].
    split; [left; reflexivity|]. split; [assumption|].
    split; [assumption|]. split; [left; reflexivity|].
    repeat constructor; assumption.
Qed.

(** ** The active route *)

Lemma prefix_trans a b c :
  String.prefix a b = true -> String.prefix b c = true ->
  String.prefix a c = true.
Proof.
  revert b c. induction a as [|x a IH]; intros b c.
  - intros _ _. destruct c; reflexivity.
  - destruct b as [|y b]; [destruct a; discriminate|].
    destruct c as [|z c]; [intros _ H; destruct b; discriminate|].
    simpl. destruct (ascii_dec x y) as [->|]; [|discriminate].
    destruct (ascii_dec y z) as [->|]; [|discriminate].
    apply IH.
Qed.

Lemma prefix_slash a b :
  String.prefix ("/" +:+ a) ("/" +:+ b) = String.prefix a b.
Proof. simpl. destruct (ascii_dec "/" "/"); [reflexivity | contradiction]. Qed.

(** X12: the active route is the first route of the table, in table
    order, whose name preceded by a slash starts the path; there is none
    exactly when no route matches. *)
Theorem activeRoute_first_match :
  forall routing pathname,
    match MenuView.activeRoute routing pathname with
    | Some r =>
        exists before after,
          routing = before ++ r :: after
          /\ String.prefix ("/" +:+ name r) pathname = true
          /\ Forall (fun a => String.prefix ("/" +:+ name a) pathname = false)
                    before
    | None =>
        Forall (fun a => String.prefix ("/" +:+ name a) pathname = false)
               routing
    end.
Proof.
  intros routing pathname. unfold MenuView.activeRoute.
  induction routing as [|x routing IH]; simpl; [constructor|].
  destruct (String.prefix ("/" +:+ name x) pathname) eqn:E.
  - exists [], routing. repeat split; [assumption | constructor].
  - destruct (find _ routing) as [r|].
    + destruct IH as (before & after & -> & Hm & Hb).
      exists (x :: before), after. repeat split; [assumption|].
      constructor; assumption.
    + constructor; assumption.
Qed.

(** X13: a route is shadowed by an earlier route whose name starts its
    own: on every path that begins with a slash and the name of [b], the
    active route is [a], whose name is a prefix of the name of [b], or a
    route that comes before [a] in the table. *)
Theorem activeRoute_shadowed_by_prefix :
  forall before a after b pathname,
    String.prefix (name a) (name b) = true ->
    String.prefix ("/" +:+ name b) pathname = true ->
    exists r,
      MenuView.activeRoute (before ++ a :: after) pathname = Some r
      /\ In r (before ++ [a]).
Proof.
  intros before a after b pathname Hab Hb.
  assert (Ha : String.prefix ("/" +:+ name a) pathname = true).
  { eapply prefix_trans; [|exact Hb]. rewrite prefix_slash. exact Hab. }
  unfold MenuView.activeRoute.
  induction before as [|x before IH]; simpl.
  - change (String "/" (name a)) with ("/" +:+ name a). rewrite Ha.
    exists a. split; [reflexivity | left; reflexivity].
  - change (String "/" (name x)) with ("/" +:+ name x).
    destruct (String.prefix ("/" +:+ name x) pathname).
    + exists x. split; [reflexivity | left; reflexivity].
    + destruct IH as (r & Hr & Hin). exists r. split; [assumption|].
      right. assumption.
Qed.

Lemma activeRoute_shadowed_by_prefix_witness :
  exists r,
    MenuView.activeRoute
      ([Examples.accountsRoute] ++ Samples.stakingOpen
         :: [Samples.stakingLegacy]) "/staking-legacy/actions" = Some r
    /\ In r ([Examples.accountsRoute] ++ [Samples.stakingOpen]).
Proof.
  apply (activeRoute_shadowed_by_prefix [Examples.accountsRoute]
           Samples.stakingOpen [Samples.stakingLegacy]
           Samples.stakingLegacy "/staking-legacy/actions");
    reflexivity.
Defined.

(** ** Slashes of a stash *)

(** X14: an unapplied slash is reported for an era exactly when the
    input lists it under that era and it names the stash as the validator
    or as one of the nominators; no era is reported without a slash. *)
Theorem extractSlashes_sound_complete :
  forall eq stashId allSlashes e s,
    (exists entry,
        In entry (Staking.extractSlashes eq stashId (Some allSlashes))
        /\ Staking.era entry = e /\ In s (Staking.slashes entry))
    <-> (exists all,
            In (e, all) allSlashes /\ In s all
            /\ (eq (Staking.validator s) stashId = true
                \/ exists nominator amount,
                     In (nominator, amount) (Staking.others s)
                     /\ eq nominator stashId = true)).
Proof.
  intros eq stashId allSlashes e s. unfold Staking.extractSlashes.
  assert (Hc : Staking.concerns eq stashId s = true
               <-> (eq (Staking.validator s) stashId = true
                    \/ exists nominator amount,
                         In (nominator, amount) (Staking.others s)
                         /\ eq nominator stashId = true)).
  { unfold Staking.concerns. rewrite orb_true_iff, existsb_exists. split.
    - intros [H|([n a] & Hin & H)]; [left; exact H|].
      right. exists n, a. split; assumption.
    - intros [H|(n & a & Hin & H)]; [left; exact H|].
      right. exists (n, a). split; assumption. }
  setoid_rewrite <- Hc. split.
  - intros (entry & Hin & <- & Hs). apply filter_In in Hin as [Hin _].
    apply in_map_iff in Hin as ([e' all] & <- & Hin). simpl in *.
    apply filter_In in Hs as [Hs Hcs]. exists all. repeat split; assumption.
  - intros (all & Hin & Hs & Hcs).
    exists {| Staking.era := e;
              Staking.slashes :=
                List.filter (Staking.concerns eq stashId) all |}.
    split; [|split; [reflexivity | apply filter_In; split; assumption]].
    apply filter_In. split.
    + apply in_map_iff. exists (e, all). split; [reflexivity | assumption].
    + simpl.
      destruct (List.filter (Staking.concerns eq stashId) all) eqn:F;
        [|reflexivity].
      assert (Hf : In s (List.filter (Staking.concerns eq stashId) all))
        by (apply filter_In; split; assumption).
      rewrite F in Hf. contradiction.
Qed.

(** X15: the result has one entry for each input era with a slash that
    concerns the stash, in input order, holding those slashes in input
    order; when the list of slashes is not given the result is empty. *)
Theorem extractSlashes_keeps_order :
  forall eq stashId allSlashes,
    Staking.extractSlashes eq stashId (Some allSlashes)
    = map (fun ea : N * list Staking.UnappliedSlash =>
             {| Staking.era := fst ea;
                Staking.slashes :=
                  List.filter (Staking.concerns eq stashId) (snd ea) |})
          (List.filter
             (fun ea => existsb (Staking.concerns eq stashId) (snd ea))
             allSlashes)
    /\ Staking.extractSlashes eq stashId None = [].
Proof.
  intros eq stashId allSlashes. split; [|reflexivity].
  unfold Staking.extractSlashes.
  induction allSlashes as [|[e all] rest IH]; simpl; [reflexivity|].
  rewrite IH. clear IH.
  assert (H : negb (length (List.filter (Staking.concerns eq stashId) all)
                    =? 0)%nat
              = existsb (Staking.concerns eq stashId) all).
  { induction all as [|s all IHa]; simpl; [reflexivity|].
    destruct (Staking.concerns eq stashId s); simpl; [reflexivity|].
    exact IHa. }
  rewrite H. destruct (existsb _ all); reflexivity.
Qed.

(** ** Guarantee targets over time *)

Lemma targetsAfter_snoc updates u init :
  Staking.targetsAfter (updates ++ [u]) init
  = Account.guaranteeTargetsEffect u (Staking.targetsAfter updates init).
Proof. unfold Staking.targetsAfter. rewrite fold_left_app. reflexivity. Qed.

(** X16: after any series of updates of the guarantor data, the
    guarantee targets are those of the most recent update that was not
    null, and the initial ones when every update was null. *)
Theorem targetsAfter_last_loaded :
  forall updates init,
    Staking.targetsAfter updates init
    = match find (fun u : option Account.Guarantee =>
                    match u with Some _ => true | None => false end)
                 (rev updates) with
      | Some (Some g) => Account.targets g
      | _ => init
      end.
Proof.
  intros updates init. induction updates as [|u updates IH] using rev_ind.
  - reflexivity.
  - rewrite targetsAfter_snoc, rev_app_distr. simpl.
    destruct u as [g|]; simpl; [reflexivity | exact IH].
Qed.

(** X17: when the guarantor data turns null after having been loaded,
    the role is no longer [Guarantor], but the targets, and with them
    the stake value, stay those of the last loaded data. *)
Theorem removed_guarantee_keeps_stake :
  forall exponential updates g init validators targets stashId,
    Account.roleEffect None validators targets stashId <> Account.Guarantor
    /\ Staking.targetsAfter (updates ++ [Some g; None]) init
       = Account.targets g
    /\ Account.stakeValue exponential
         (Staking.targetsAfter (updates ++ [Some g; None]) init)
       = Account.stakeValue exponential (Account.targets g).
Proof.
  intros exponential updates g init validators targets stashId.
  assert (E : Staking.targetsAfter (updates ++ [Some g; None]) init
              = Account.targets g).
  { change [Some g; None] with ([Some g] ++ [@None Account.Guarantee]).
    rewrite app_assoc, !targetsAfter_snoc. reflexivity. }
  split; [|split; [exact E | rewrite E; reflexivity]].
  unfold Account.roleEffect, Account.classifyRole. simpl.
  destruct (Account.isCandidate targets stashId); [discriminate|].
  destruct (Account.isValidator validators stashId); discriminate.
Qed.

(** ** What the row offers *)



(** X19: on a row that is not loading, an address with guarantee
    targets gets the guarantee items and none of the session-key items,
    also when it is in the validator set or in the candidate pool. *)
Theorem guarantor_gets_guarantee_section :
  forall g validators targets stashId info isMaxwell hasKick freeBalance
         stakingAccount targetValidators,
    Account.targets g <> [] ->
    Staking.isLoading info = false ->
    let role := Account.roleEffect (Some g) validators targets stashId in
    let actions :=
      map Staking.action
          (Staking.settingsItems info role isMaxwell hasKick freeBalance
             stakingAccount targetValidators) in
    In Staking.Nominate actions
    /\ In Staking.CutGuarantee actions
    /\ ~ In Staking.SetSession actions
    /\ ~ In Staking.Inject actions.
Proof.
  intros g validators targets stashId info isMaxwell hasKick freeBalance
    stakingAccount targetValidators Hg Hl.
  unfold Account.roleEffect, Account.isGuarantor.
  destruct (Account.targets g); [contradiction|]. simpl.
  unfold Staking.settingsItems. rewrite Hl.
  destruct isMaxwell; simpl; repeat split; intuition discriminate.
Qed.

Lemma guarantor_gets_guarantee_section_witness :
  In Staking.CutGuarantee
    (map Staking.action
       (Staking.settingsItems
          {| Staking.isLoading := false; Staking.isOwnController := true;
             Staking.isOwnStash := true; Staking.isStashNominating := false;
             Staking.isStashValidating := true; Staking.sessionIds := [];
             Staking.hexSessionIdNext := None |}
          (Account.roleEffect
             (Some {| Account.targets := Examples.smallTargets |})
             (Some [Examples.stash])
             (Some {| Account.waitingIds := Some [Examples.stash] |})
             Examples.stash)
          false true None None None)).
Proof.
  apply (guarantor_gets_guarantee_section
           {| Account.targets := Examples.smallTargets |}
           (Some [Examples.stash])
           (Some {| Account.waitingIds := Some [Examples.stash] |})
           Examples.stash).
  - discriminate.
  - reflexivity.
Defined.

(** X20: without the controller key, every button of the row but the
    settings button is disabled, and the only settings items that can be
    enabled are bonding more, changing the controller and injecting
    session keys. *)
Theorem controller_actions_need_controller :
  forall info role isDisabled isMaxwell hasKick freeBalance stakingAccount
         validators c,
    Staking.isOwnController info = false ->
    In c (Staking.buttons info isDisabled stakingAccount
          ++ Staking.settingsItems info role isMaxwell hasKick freeBalance
               stakingAccount validators) ->
    Staking.disabled c = false ->
    Staking.action c = Staking.Settings
    \/ Staking.action c = Staking.BondExtra
    \/ Staking.action c = Staking.SetController
    \/ Staking.action c = Staking.Inject.
Proof.
  intros info role isDisabled isMaxwell hasKick freeBalance stakingAccount
    validators c Hown Hin Hen.
  unfold Staking.buttons, Staking.settingsItems in Hin. rewrite Hown in Hin.
  simpl in Hin.
  destruct (Staking.isLoading info); [contradiction|].
  destruct
    (Staking.isStashNominating info || Staking.isStashValidating info),
    ((length (Staking.sessionIds info) =? 0)%nat
     || match Staking.hexSessionIdNext info with
        | Some h => String.eqb h "0x"
        | None => false
        end),
    role, isMaxwell, (Staking.isStashValidating info), hasKick;
    simpl in Hin;
    repeat (destruct Hin as [<-|Hin]; [simpl in *; try discriminate; tauto|]);
    contradiction.
Qed.

Lemma controller_actions_need_controller_witness :
  Staking.action {| Staking.action := Staking.BondExtra;
                    Staking.disabled := false |} = Staking.Settings
  \/ Staking.action {| Staking.action := Staking.BondExtra;
                       Staking.disabled := false |} = Staking.BondExtra
  \/ Staking.action {| Staking.action := Staking.BondExtra;
                       Staking.disabled := false |} = Staking.SetController
  \/ Staking.action {| Staking.action := Staking.BondExtra;
                       Staking.disabled := false |} = Staking.Inject.
Proof.
  apply (controller_actions_need_controller Samples.watched Account.Bonded
           false false false (Some 100%N) (Some Samples.bonded) None).
  - reflexivity.
  - right. right. right. left. reflexivity.
  - reflexivity.
Defined.

Lemma nothingActive_hasBonded stakingAccount :
  Staking.nothingActive stakingAccount
  = negb (Staking.hasBonded stakingAccount).
Proof.
  unfold Staking.nothingActive, Staking.hasBonded.
  destruct stakingAccount as [[[[active]|] redeemable]|]; simpl;
    try reflexivity.
  destruct (active =? 0)%N; reflexivity.
Qed.

(** X21: the unbond and rebond items are enabled exactly when the
    controller key is at hand and the ledger has an active amount other
    than zero, the test behind [hasBonded]; the guarantee button is
    enabled exactly when, besides, the row is not disabled. *)
Theorem bonded_amount_gates :
  forall info role isDisabled isMaxwell hasKick freeBalance stakingAccount
         validators c,
    (In c (Staking.settingsItems info role isMaxwell hasKick freeBalance
             stakingAccount validators) ->
     Staking.action c = Staking.Unbond \/ Staking.action c = Staking.Rebond ->
     (Staking.disabled c = false
      <-> Staking.isOwnController info = true
          /\ Staking.hasBonded stakingAccount = true))
    /\ (In c (Staking.buttons info isDisabled stakingAccount) ->
        Staking.action c = Staking.Nominate ->
        (Staking.disabled c = false
         <-> Staking.isOwnController info = true
             /\ isDisabled = false
             /\ Staking.hasBonded stakingAccount = true)).
Proof.
  intros info role isDisabled isMaxwell hasKick freeBalance stakingAccount
    validators c. split.
  - unfold Staking.settingsItems. rewrite nothingActive_hasBonded.
    intros Hin Ha.
    destruct (Staking.isLoading info); [contradiction|].
    destruct role, isMaxwell, (Staking.isStashValidating info), hasKick;
      simpl in Hin;
      repeat (destruct Hin as [<-|Hin];
              [simpl in *;
               try (destruct Ha; discriminate);
               destruct (Staking.isOwnController info),
                 (Staking.hasBonded stakingAccount); simpl;
               intuition discriminate|]);
      contradiction.
  - unfold Staking.buttons. intros Hin Ha.
    destruct (Staking.isLoading info); [contradiction|].
    destruct (Staking.isStashNominating info
              || Staking.isStashValidating info),
      ((length (Staking.sessionIds info) =? 0)%nat
       || match Staking.hexSessionIdNext info with
          | Some h => String.eqb h "0x"
          | None => false
          end);
      simpl in Hin;
      repeat (destruct Hin as [<-|Hin];
              [simpl in *; try discriminate;
               destruct (Staking.isOwnController info), isDisabled,
                 (Staking.hasBonded stakingAccount); simpl;
               intuition discriminate|]);
      contradiction.
Qed.

Lemma bonded_amount_gates_witness :
  Staking.disabled {| Staking.action := Staking.Unbond;
                      Staking.disabled := false |} = false
  <-> Staking.isOwnController Samples.owned = true
      /\ Staking.hasBonded (Some Samples.bonded) = true.
Proof.
  apply (proj1 (bonded_amount_gates Samples.owned Account.Bonded false false
                  false None (Some Samples.bonded) None
                  {| Staking.action := Staking.Unbond;
                     Staking.disabled := false |})).
  - right. left. reflexivity.
  - left. reflexivity.
Defined.



(** ** How far the stake value can be from the exact sum *)

(** The two ways [Number] treats an integer: kept as it is, or cut to 53
    significant bits [q] with the rest [r] rounded away. *)
Lemma Number_of_cases v :
  JS.Number_of v = v
  \/ exists q P r,
       (2 ^ 52 <= q < 2 ^ 53)%N /\ (r < P)%N /\ v = (q * P + r)%N
       /\ (exists sh, (1 <= sh)%N /\ P = (2 ^ sh)%N)
       /\ ((2 * r < P /\ JS.Number_of v = q * P)
           \/ (P < 2 * r /\ JS.Number_of v = (q + 1) * P)
           \/ (2 * r = P
               /\ (JS.Number_of v = q * P \/ JS.Number_of v = (q + 1) * P)))%N.
Proof.
  unfold JS.Number_of.
  destruct (N.ltb_spec (N.log2 v) 53) as [_|He]; [left; reflexivity|].
  right.
  assert (Hv : (0 < v)%N).
  { destruct (N.eq_dec v 0%N) as [->|]; [simpl in He; lia | lia]. }
  set (e := N.log2 v) in *. set (sh := (e - 52)%N).
  assert (Hsh : (1 <= sh)%N) by (subst sh; lia).
  assert (HP : (2 ^ sh <> 0)%N) by (apply N.pow_nonzero; discriminate).
  assert (Hpow : (2 ^ e = 2 ^ 52 * 2 ^ sh)%N).
  { rewrite <- N.pow_add_r. f_equal. subst sh. lia. }
  assert (Hpow' : (2 ^ N.succ e = 2 ^ 53 * 2 ^ sh)%N).
  { rewrite <- N.pow_add_r. f_equal. subst sh. lia. }
  assert (Hhalf : (2 ^ sh = 2 * 2 ^ (sh - 1))%N).
  { rewrite <- N.pow_succ_r'. f_equal. lia. }
  destruct (N.log2_spec v Hv) as [Hlo Hhi]. fold e in Hlo, Hhi.
  rewrite N.shiftr_div_pow2, !N.shiftl_mul_pow2, N.mul_1_l.
  set (P := (2 ^ sh)%N) in *. set (q := (v / P)%N).
  assert (Hdm : v = (q * P + v mod P)%N).
  { subst q. rewrite N.mul_comm. apply N.div_mod. assumption. }
  assert (Hr : (v mod P < P)%N) by (apply N.mod_lt; assumption).
  remember (v mod P)%N as r eqn:Er. clear Er.
  remember (q * P)%N as qP eqn:EqP.
  assert (Hrv : (v - qP = r)%N) by lia.
  rewrite Hrv. subst qP.
  assert (Hq1 : (2 ^ 52 <= q)%N).
  { subst q. apply N.div_le_lower_bound; [assumption|]. lia. }
  assert (Hq2 : (q < 2 ^ 53)%N).
  { subst q. apply N.Div0.div_lt_upper_bound. lia. }
  exists q, P, r. split; [split; assumption|]. split; [assumption|].
  split; [assumption|]. split; [exists sh; split; [assumption|reflexivity]|].
  destruct (N.ltb_spec r (2 ^ (sh - 1))) as [H1|H1].
  - left. split; [lia | reflexivity].
  - destruct (N.ltb_spec (2 ^ (sh - 1)) r) as [H2|H2].
    + right. left. split; [lia | reflexivity].
    + right. right. split; [lia|].
      destruct (N.even q); [left | right]; reflexivity.
Qed.

Lemma Number_of_normal q sh :
  (2 ^ 52 <= q < 2 ^ 53)%N -> JS.Number_of (q * 2 ^ sh)%N = (q * 2 ^ sh)%N.
Proof.
  intros [Hlo Hhi].
  assert (Hq : (0 < q)%N) by (assert (0 < 2 ^ 52)%N by reflexivity; lia).
  assert (Hl : N.log2 q = 52%N).
  { apply N.log2_unique; [lia|]. split; [assumption|].
    change (N.succ 52) with 53%N. assumption. }
  assert (He : N.log2 (q * 2 ^ sh) = (sh + 52)%N).
  { rewrite N.log2_mul_pow2 by lia. rewrite Hl. reflexivity. }
  unfold JS.Number_of. rewrite He.
  destruct (N.ltb_spec (sh + 52) 53) as [_|Hge]; [reflexivity|].
  replace (sh + 52 - 52)%N with sh by lia.
  assert (HP : (2 ^ sh <> 0)%N) by (apply N.pow_nonzero; discriminate).
  rewrite N.shiftr_div_pow2, N.div_mul by assumption.
  rewrite !N.shiftl_mul_pow2, N.sub_diag.
  assert (Hh : (0 < 1 * 2 ^ (sh - 1))%N).
  { rewrite N.mul_1_l. apply N.neq_0_lt_0, N.pow_nonzero. discriminate. }
  destruct (N.ltb_spec 0 (1 * 2 ^ (sh - 1))) as [_|Hc]; [reflexivity | lia].
Qed.

(** [Number] leaves a number as it is. *)
Lemma Number_of_idempotent v : JS.Number_of (JS.Number_of v) = JS.Number_of v.
Proof.
  destruct (Number_of_cases v)
    as [E|(q & P & r & Hq & Hr & Hv & (sh & Hsh & ->) & Hc)];
    [rewrite E; exact E|].
  assert (Hup : JS.Number_of ((q + 1) * 2 ^ sh)%N = ((q + 1) * 2 ^ sh)%N).
  { destruct (N.eq_dec (q + 1)%N (2 ^ 53)%N) as [E|Hne].
    - rewrite E.
      replace (2 ^ 53 * 2 ^ sh)%N with (2 ^ 52 * 2 ^ (sh + 1))%N.
      + apply Number_of_normal. split; [reflexivity | reflexivity].
      + rewrite N.pow_add_r. change (2 ^ 53)%N with (2 ^ 52 * 2)%N.
        change (2 ^ 1)%N with 2%N. lia.
    - apply Number_of_normal. lia. }
  destruct Hc as [[_ E]|[[_ E]|[_ [E|E]]]]; rewrite E;
    [apply Number_of_normal; assumption | exact Hup
    | apply Number_of_normal; assumption | exact Hup].
Qed.

(** Rounding moves a value by at most one part in 2^53. *)
Lemma Number_of_close v :
  (2 ^ 53 * JS.Number_of v <= (2 ^ 53 + 1) * v
   /\ (2 ^ 53 - 1) * v <= 2 ^ 53 * JS.Number_of v)%N.
Proof.
  destruct (Number_of_cases v)
    as [E|(q & P & r & [Hq1 Hq2] & Hr & Hv & _ & Hc)];
    [rewrite E; lia|].
  assert (HqP : (2 ^ 52 * P <= q * P)%N) by (apply N.mul_le_mono_r; assumption).
  set (qP := (q * P)%N) in *.
  change (2 ^ 53)%N with 9007199254740992%N in *.
  change (2 ^ 52)%N with 4503599627370496%N in *.
  destruct Hc as [[Hc E]|[[Hc E]|[Hc [E|E]]]]; rewrite E;
    replace ((q + 1) * P)%N with (qP + P)%N by (subst qP; lia); lia.
Qed.

Lemma shortest_at_reads_back m p s :
  JS.shortest_at m p = Some s -> JS.Number_of (s * p)%N = m.
Proof.
  unfold JS.shortest_at.
  destruct (N.eqb_spec (JS.Number_of (m / p * p)) m) as [Hlo|_];
    destruct (N.eqb_spec (JS.Number_of ((m / p + 1) * p)) m) as [Hhi|_];
    try discriminate.
  - repeat (destruct (_ <? _)%N); try (intros [= <-]; assumption).
    destruct (N.even (m / p)); intros [= <-]; assumption.
  - intros [= <-]; assumption.
  - intros [= <-]; assumption.
Qed.

Lemma shortest_reads_back m j :
  JS.Number_of m = m -> JS.Number_of (JS.shortest m j) = m.
Proof.
  intros Hm. induction j as [|j IH]; [exact Hm|].
  cbn [JS.shortest].
  destruct (JS.shortest_at m (10 ^ N.of_nat (S j))) as [s|] eqn:E;
    [|exact IH].
  apply shortest_at_reads_back, E.
Qed.

(** A value that [Number] keeps below 10^21 reaches the big integer as
    a plain decimal numeral. *)
Lemma toBN_value exponential v b :
  (JS.Number_of v < 10 ^ 21)%N ->
  Account.toBN exponential v = Some b ->
  exists j, b = JS.shortest (JS.Number_of v) j.
Proof.
  intros Hv. unfold Account.toBN, JS.Number_toString.
  apply N.ltb_lt in Hv. rewrite Hv.
  rewrite BN_of_decimal. intros [= <-]. eexists. reflexivity.
Qed.

Lemma toBN_defined exponential v :
  (JS.Number_of v < 10 ^ 21)%N ->
  exists b, Account.toBN exponential v = Some b.
Proof.
  intros Hv. unfold Account.toBN, JS.Number_toString.
  apply N.ltb_lt in Hv. rewrite Hv. rewrite BN_of_decimal.
  eexists. reflexivity.
Qed.

Lemma toBN_reads_back exponential v b :
  (JS.Number_of v < 10 ^ 21)%N ->
  Account.toBN exponential v = Some b -> JS.Number_of b = JS.Number_of v.
Proof.
  intros Hv H. destruct (toBN_value exponential v b Hv H) as [j ->].
  apply shortest_reads_back, Number_of_idempotent.
Qed.

Lemma toBN_close exponential v b :
  (JS.Number_of v < 10 ^ 21)%N ->
  Account.toBN exponential v = Some b ->
  (2 ^ 53 * b <= 2 ^ 53 * v + (b + v)
   /\ 2 ^ 53 * v <= 2 ^ 53 * b + (b + v))%N.
Proof.
  intros Hv H. apply (toBN_reads_back exponential v b Hv) in H.
  pose proof (Number_of_close v) as [Hv1 Hv2].
  pose proof (Number_of_close b) as [Hb1 Hb2]. rewrite H in Hb1, Hb2.
  change (2 ^ 53)%N with 9007199254740992%N in *. lia.
Qed.

(** Every balance up to the largest number below 10^21 is kept below
    10^21 by [Number]. *)
Lemma Number_of_below_exponential v :
  (v <= 10 ^ 21 - 2 ^ 17)%N -> (JS.Number_of v < 10 ^ 21)%N.
Proof.
  intros Hv. pose proof (Number_of_close v) as [H _].
  change (2 ^ 53)%N with 9007199254740992%N in *.
  change (10 ^ 21 - 2 ^ 17)%N with 999999999999999868928%N in Hv.
  change (10 ^ 21)%N with 1000000000000000000000%N. lia.
Qed.

(** X23: for a balance whose number prints as a plain decimal numeral
    (one that [Number] keeps below 10^21), the code makes a big integer
    of it, whatever the library does with exponential texts; that big
    integer is a value that [Number] reads as the same number as the
    balance, and it differs from the balance by at most one part in 2^53
    of the two together. *)
Theorem toBN_within_rounding :
  forall exponential v,
    (JS.Number_of v < 10 ^ 21)%N ->
    (exists b, Account.toBN exponential v = Some b)
    /\ (forall b,
          Account.toBN exponential v = Some b ->
          JS.Number_of b = JS.Number_of v
          /\ (2 ^ 53 * b <= 2 ^ 53 * v + (b + v))%N
          /\ (2 ^ 53 * v <= 2 ^ 53 * b + (b + v))%N).
Proof.
  intros exponential v Hv. split; [apply toBN_defined, Hv|].
  intros b H.
  split; [eapply toBN_reads_back | eapply toBN_close]; eassumption.
Qed.

Lemma toBN_within_rounding_witness :
  JS.Number_of 9007199254740992 = JS.Number_of 9007199254740993
  /\ (2 ^ 53 * 9007199254740992
      <= 2 ^ 53 * 9007199254740993 + (9007199254740992 + 9007199254740993))%N
  /\ (2 ^ 53 * 9007199254740993
      <= 2 ^ 53 * 9007199254740992 + (9007199254740992 + 9007199254740993))%N.
Proof.
  assert (Hv : (JS.Number_of 9007199254740993 < 10 ^ 21)%N)
    by (vm_compute; reflexivity).
  destruct (toBN_within_rounding (fun _ => None) 9007199254740993%N Hv)
    as [_ H].
  apply (H 9007199254740992%N). vm_compute. reflexivity.
Defined.

(** ** The stake value as a sum *)

Section StakeSum.
Variable exponential : N -> option N.

Lemma stakeValue_fold_None ts :
  fold_left (fun (total : option N) (t : Account.IndividualExposure) =>
               tot ← total; v ← Account.toBN exponential (Account.value t);
               Some (tot + v)%N) ts None = None.
Proof. induction ts as [|t ts IH]; simpl; [reflexivity | exact IH]. Qed.

Lemma stakeValue_fold ts : forall acc,
  fold_left (fun (total : option N) (t : Account.IndividualExposure) =>
               tot ← total; v ← Account.toBN exponential (Account.value t);
               Some (tot + v)%N) ts (Some acc)
  = option_map (N.add acc) (Account.stakeValue exponential ts).
Proof.
  unfold Account.stakeValue. induction ts as [|t ts IH]; intros acc; simpl.
  - rewrite N.add_0_r. reflexivity.
  - destruct (Account.toBN exponential (Account.value t)) as [b|]; simpl.
    + rewrite (IH (acc + b)%N), ?N.add_0_l, (IH b).
      destruct (fold_left _ ts (Some 0%N)); simpl; [|reflexivity].
      f_equal. lia.
    + rewrite stakeValue_fold_None. reflexivity.
Qed.

Lemma stakeValue_cons t ts :
  Account.stakeValue exponential (t :: ts)
  = match Account.toBN exponential (Account.value t),
          Account.stakeValue exponential ts with
    | Some b, Some s => Some (b + s)%N
    | _, _ => None
    end.
Proof.
  unfold Account.stakeValue at 1. simpl.
  destruct (Account.toBN exponential (Account.value t)) as [b|]; simpl.
  - rewrite stakeValue_fold.
    destruct (Account.stakeValue exponential ts); reflexivity.
  - apply stakeValue_fold_None.
Qed.

End StakeSum.

(** X24: the stake value does not depend on the order in which the
    targets are listed. *)
Theorem stakeValue_order_independent :
  forall exponential ts ts',
    Permutation ts ts' ->
    Account.stakeValue exponential ts = Account.stakeValue exponential ts'.
Proof.
  intros exponential.
  induction 1 as [|t ts ts' _ IH|t u ts|ts ts' ts'' _ IH1 _ IH2].
  - reflexivity.
  - rewrite !stakeValue_cons, IH. reflexivity.
  - rewrite !stakeValue_cons.
    destruct (Account.toBN exponential (Account.value t)),
      (Account.toBN exponential (Account.value u)),
      (Account.stakeValue exponential ts);
      try reflexivity.
    f_equal. lia.
  - congruence.
Qed.

Lemma stakeValue_order_independent_witness :
  Account.stakeValue (fun _ => None) Examples.smallTargets
  = Account.stakeValue (fun _ => None) (rev Examples.smallTargets).
Proof.
  apply (stakeValue_order_independent (fun _ => None) Examples.smallTargets
           (rev Examples.smallTargets)).
  apply Permutation_rev.
Defined.

(** X25: while every target value is at most 10^21 - 2^17, the largest
    number below 10^21, so that no summand prints in exponential
    notation, the stake value is computed, whatever the library does
    with exponential texts, and it differs from the exact sum of the
    target values by at most one part in 2^53 of the two together. *)
Theorem stakeValue_within_rounding :
  forall exponential ts,
    Forall (fun t => (Account.value t <= 10 ^ 21 - 2 ^ 17)%N) ts ->
    exists s,
      Account.stakeValue exponential ts = Some s
      /\ (2 ^ 53 * s <= 2 ^ 53 * Account.exactStake ts
                        + (s + Account.exactStake ts))%N
      /\ (2 ^ 53 * Account.exactStake ts
          <= 2 ^ 53 * s + (s + Account.exactStake ts))%N.
Proof.
  intros exponential ts. change (2 ^ 53)%N with 9007199254740992%N.
  induction 1 as [|t ts Ht _ IH].
  - exists 0%N. split; [reflexivity|]. simpl. lia.
  - destruct IH as (s' & Es & IH).
    pose proof (Number_of_below_exponential _ Ht) as Hm.
    destruct (toBN_defined exponential _ Hm) as [b Eb].
    pose proof (toBN_close exponential _ _ Hm Eb) as Hb.
    change (2 ^ 53)%N with 9007199254740992%N in Hb.
    exists (b + s')%N. rewrite stakeValue_cons, Eb, Es.
    split; [reflexivity|]. simpl. lia.
Qed.

Lemma stakeValue_within_rounding_witness :
  exists s,
    Account.stakeValue (fun _ => Some 23521%N) Examples.largeTargets = Some s
    /\ (2 ^ 53 * s <= 2 ^ 53 * Account.exactStake Examples.largeTargets
                      + (s + Account.exactStake Examples.largeTargets))%N
    /\ (2 ^ 53 * Account.exactStake Examples.largeTargets
        <= 2 ^ 53 * s + (s + Account.exactStake Examples.largeTargets))%N.
Proof.
  apply (stakeValue_within_rounding (fun _ => Some 23521%N)
           Examples.largeTargets).
  repeat constructor. vm_compute. discriminate.
Defined.

(** X26: while every target value is below 2^53 the stake value is the
    exact sum. *)
Theorem stakeValue_exact_for_small_values :
  forall exponential ts,
    Forall (fun t => (Account.value t < 2 ^ 53)%N) ts ->
    Account.stakeValue exponential ts = Some (Account.exactStake ts).
Proof.
  intros exponential. induction ts as [|t ts IH]; intros H; [reflexivity|].
  inversion H as [|? ? Ht Hts]; subst.
  rewrite stakeValue_cons, (toBN_small exponential _ Ht), (IH Hts).
  reflexivity.
Qed.

Lemma stakeValue_exact_for_small_values_witness :
  Account.stakeValue (fun _ => None) Examples.smallTargets
  = Some (Account.exactStake Examples.smallTargets).
Proof.
  apply (stakeValue_exact_for_small_values (fun _ => None)
           Examples.smallTargets).
  repeat constructor.
Defined.

(** ** Where the order of the groups comes from *)

Lemma filter_filter_bool {A} (p q : A -> bool) l :
  List.filter p (List.filter q l) = List.filter (fun x => q x && p x) l.
Proof.
  induction l as [|x l IH]; simpl; [reflexivity|].
  destruct (q x); simpl; [destruct (p x)|]; rewrite IH; reflexivity.
Qed.

Lemma filter_filter_comm {A} (p q : A -> bool) l :
  List.filter p (List.filter q l) = List.filter q (List.filter p l).
Proof.
  rewrite !filter_filter_bool. apply List.filter_ext. intros x.
  apply andb_comm.
Qed.

Lemma firstSeen_filter (p : string -> bool) ks :
  Spec.firstSeen (List.filter p ks) = List.filter p (Spec.firstSeen ks).
Proof.
  induction ks as [|k ks IH]; simpl; [reflexivity|].
  destruct (p k) eqn:E; simpl.
  - rewrite ?E, IH. f_equal. apply filter_filter_comm.
  - rewrite ?E, IH, filter_filter_bool. apply List.filter_ext.
    intros x. destruct (String.eqb_spec x k) as [->|_]; simpl.
    + rewrite E. reflexivity.
    + reflexivity.
Qed.

Lemma map_group_filter (p : string -> bool) routing :
  map group (List.filter (fun r => p (group r)) routing)
  = List.filter p (map group routing).
Proof.
  induction routing as [|r routing IH]; simpl; [reflexivity|].
  destruct (p (group r)); simpl; rewrite IH; reflexivity.
Qed.

Lemma members_filter (p : string -> bool) routing k :
  p k = true ->
  Spec.members (List.filter (fun r => p (group r)) routing) k
  = Spec.members routing k.
Proof.
  intros Hk. unfold Spec.members. rewrite filter_filter_bool.
  apply List.filter_ext. intros r.
  destruct (String.eqb_spec (group r) k) as [->|_]; simpl;
    [rewrite Hk; reflexivity | apply andb_false_r].
Qed.

(** The partition of the routes whose key satisfies [p] is the part of
    the partition with such keys. *)
Lemma partition_filter (p : string -> bool) routing :
  Spec.partition (List.filter (fun r => p (group r)) routing)
  = List.filter (fun kr => p (fst kr)) (Spec.partition routing).
Proof.
  unfold Spec.partition. rewrite map_group_filter, firstSeen_filter.
  generalize (Spec.firstSeen (map group routing)) as ks.
  induction ks as [|k ks IH]; simpl; [reflexivity|].
  destruct (p k) eqn:E; simpl; rewrite IH; [|reflexivity].
  rewrite (members_filter p routing k E). reflexivity.
Qed.

Lemma named_asObject gn parts :
  JS.named (Spec.asObject gn parts)
  = map snd (Spec.asObject gn
               (List.filter
                  (fun kr => match JS.array_index (fst kr) with
                             | None => true
                             | Some _ => false
                             end) parts)).
Proof.
  induction parts as [|[k rs] parts IH]; simpl; [reflexivity|].
  destruct (JS.array_index k); simpl; rewrite IH; reflexivity.
Qed.

Lemma indexed_asObject gn parts :
  Permutation
    (map snd (JS.indexed (Spec.asObject gn parts)))
    (map snd (Spec.asObject gn
                (List.filter
                   (fun kr => match JS.array_index (fst kr) with
                              | None => false
                              | Some _ => true
                              end) parts))).
Proof.
  induction parts as [|[k rs] parts IH]; simpl; [reflexivity|].
  destruct (JS.array_index k) as [i|]; simpl; [|exact IH].
  rewrite (Permutation_map snd (insert_by_index_Permutation i _ _)).
  simpl. constructor. exact IH.
Qed.

(** X27: whenever [extractGroups] returns, the result is made of two
    runs: first the groups whose key is an array index, then the groups
    with any other key, these in the order their key is first seen in the
    input.  The first run holds the groups of the index-keyed routes, in
    the order [Object.values] gives them. *)
Theorem extractGroups_index_keys_first :
  forall routing gn props ha hs st out,
    fst (extractGroups routing gn props ha hs st) = Some out ->
    exists indexGroups,
      out = indexGroups
            ++ Spec.computeVisibleGroups
                 (List.filter
                    (fun r => match JS.array_index (group r) with
                              | None => true
                              | Some _ => false
                              end) routing)
                 gn props ha hs
      /\ Permutation indexGroups
           (Spec.computeVisibleGroups
              (List.filter
                 (fun r => match JS.array_index (group r) with
                           | None => false
                           | Some _ => true
                           end) routing)
              gn props ha hs).
Proof.
  intros routing gn props ha hs st out H.
  assert (Hno : Forall (fun r => JS.inherited (group r) = false) routing).
  { apply List.Forall_forall. intros r Hr.
    destruct (JS.inherited (group r)) eqn:I; [|reflexivity].
    assert (Hf : reduceRoutes gn routing [] = None).
    { apply reduceRoutes_fails; [reflexivity|].
      apply List.Exists_exists. exists r. split; assumption. }
    rewrite extractGroups_fst, Hf in H. discriminate. }
  rewrite extractGroups_fst in H.
  change (@nil (string * Group)) with (Spec.asObject gn (Spec.partition []))
    in H.
  rewrite (reduceRoutes_partition gn routing [] Hno) in H. simpl in H.
  injection H as <-.
  unfold JS.values. rewrite map_app, List.filter_app.
  eexists. split.
  - f_equal. rewrite named_asObject.
    unfold Spec.computeVisibleGroups.
    rewrite (partition_filter
               (fun k => match JS.array_index k with
                         | None => true
                         | Some _ => false
                         end)).
    unfold Spec.asObject. rewrite !map_map. reflexivity.
  - unfold Spec.computeVisibleGroups.
    rewrite (partition_filter
               (fun k => match JS.array_index k with
                         | None => false
                         | Some _ => true
                         end)).
    apply filter_Permutation_bool.
    rewrite (Permutation_map _ (indexed_asObject gn _)).
    unfold Spec.asObject. rewrite !map_map. reflexivity.
Qed.

Lemma extractGroups_index_keys_first_witness :
  exists indexGroups,
    [ {| g_name := None; routes := [Examples.first] |};
      {| g_name := None; routes := [Examples.second] |};
      {| g_name := None; routes := [Examples.explorerRoute] |} ]
    = indexGroups
      ++ Spec.computeVisibleGroups
           (List.filter
              (fun r => match JS.array_index (group r) with
                        | None => true
                        | Some _ => false
                        end)
              [Examples.explorerRoute; Examples.second; Examples.first])
           Examples.noNames Examples.offline false false
    /\ Permutation indexGroups
         (Spec.computeVisibleGroups
            (List.filter
               (fun r => match JS.array_index (group r) with
                         | None => false
                         | Some _ => true
                         end)
               [Examples.explorerRoute; Examples.second; Examples.first])
            Examples.noNames Examples.offline false false).
Proof.
  apply (extractGroups_index_keys_first
           [Examples.explorerRoute; Examples.second; Examples.first]
           Examples.noNames Examples.offline false false start).
  vm_compute. reflexivity.
Defined.

(** ** The icon *)


